(** * Roster reconciliation: a shallow embedding of
      [verif_joueurs_laliga_SAFE_MATCH.py]

    The development follows the Python module top to bottom: the constants
    and the club catalog, the name normaliser ([remove_accents],
    [extract_first_name]), the provider client ([is_cache_fresh],
    [fetch_or_load_players]) and the reconciliation loop
    ([verifier_effectifs]).

    Conventions.
    - A Python [str] is a list of Unicode code points ([list N]).
    - A Python exception is a value: pure code returns [result A], code that
      touches the clock, the cache directory or the network is a function
      [World -> World * result A].
    - Similarity scores are Python floats; they are modelled by exact
      rationals ([Q]), every finite float being one, and [score + 25] is
      taken without rounding.
    - What the module imports from outside the repository (the Unicode
      tables of [unicodedata], [str.lower], the similarity metric of
      [rapidfuzz]) is an interface: a type class whose methods the code
      calls. *)

From Stdlib Require Import QArith Qminmax Qround Lqa.
From Stdlib Require Import String Ascii Sorted.
From stdpp Require Import gmap list.

Local Open Scope Z_scope.

(** ** Strings *)

Abbreviation str := (list N) (only parsing).

(** String literals of the source, as code points (ASCII text only). *)
Definition py (s : string) : str :=
  List.map N_of_ascii (list_ascii_of_string s).

(** [str.isspace] on one code point: the white space of CPython's
    [_PyUnicode_IsWhitespace], which is what [str.strip()] and [str.split()]
    without arguments cut on. *)
Definition isspace (c : N) : bool :=
  (((9 <=? c) && (c <=? 13)) || ((28 <=? c) && (c <=? 32))
   || (c =? 133) || (c =? 160) || (c =? 5760)
   || ((8192 <=? c) && (c <=? 8202))
   || (c =? 8232) || (c =? 8233) || (c =? 8239) || (c =? 8287)
   || (c =? 12288))%N.

Fixpoint lstrip (s : str) : str :=
  match s with
  | c :: s' => if isspace c then lstrip s' else s
  | [] => []
  end.

(** [s.strip()] *)
Definition strip (s : str) : str := rev (lstrip (rev (lstrip s))).

(** [s.split()]: the maximal runs of non-space code points, in order; [tok]
    holds the current run, reversed. *)
Fixpoint split_from (tok : str) (s : str) : list str :=
  match s with
  | [] => match tok with [] => [] | _ => [rev tok] end
  | c :: s' =>
      if isspace c
      then match tok with
           | [] => split_from [] s'
           | _ => rev tok :: split_from [] s'
           end
      else split_from (c :: tok) s'
  end.

Definition split (s : str) : list str := split_from [] s.

(** Truth value of a Python string: non-empty. *)
Definition truthy (s : str) : bool :=
  match s with [] => false | _ => true end.

(** ** Exceptions *)

Inductive exn : Type :=
  | IndexError        (* list index out of range *)
  | JSONDecodeError.  (* json.load on a file that is not JSON *)

Inductive result (A : Type) : Type :=
  | Ok (a : A)
  | Raise (e : exn).
Arguments Ok {A} a.
Arguments Raise {A} e.

Definition bind {A B} (r : result A) (k : A -> result B) : result B :=
  match r with
  | Ok a => k a
  | Raise e => Raise e
  end.

Declare Scope result_scope.
Delimit Scope result_scope with result.
Notation "'let?' x ':=' r 'in' k" := (bind r (fun x => k))
  (at level 10, x pattern, r at level 100, k at level 200) : result_scope.
Local Open Scope result_scope.

(** A list comprehension whose body can raise: evaluated left to right, the
    first exception aborts it. *)
Fixpoint comprehension {A B} (f : A -> result B) (l : list A) : result (list B) :=
  match l with
  | [] => Ok []
  | a :: l' =>
      let? b := f a in
      let? bs := comprehension f l' in
      Ok (b :: bs)
  end.

(** ** Imported interfaces *)

(** [unicodedata.normalize('NFD', _)], the test [unicodedata.category(c) ==
    'Mn'] and [str.lower]. *)
Class Unicode := {
  nfd : str -> str;
  is_Mn : N -> bool;
  lower : str -> str
}.

(** [rapidfuzz.fuzz.token_sort_ratio], a percentage. *)
Class Fuzz := {
  token_sort_ratio : str -> str -> Q
}.

(** ** Constants (lines 12-40) *)

Definition MAX_CACHE_AGE_HOURS : Q := 24%Q.
Definition MAX_RETRIES : nat := 3.
Definition PAUSE_AFTER : nat := 10.
Definition PAUSE_SECONDS : Q := 30%Q.

(** The dict literal, in insertion order, which is the order [.items()]
    iterates in. *)
Definition CLUB_SLUG_TO_ID : list (str * Z) :=
  Eval vm_compute in
  [ (py "athletic-club-bilbao", 621);
    (py "atletico-madrid-madrid", 13);
    (py "barcelona-barcelona", 131);
    (py "celta-de-vigo-vigo", 940);
    (py "deportivo-alaves-vitoria-gasteiz", 1108);
    (py "elche-elche", 1531);
    (py "espanyol-barcelona", 670);
    (py "getafe-getafe-madrid", 3709);
    (py "girona-girona", 12321);
    (py "levante-valencia", 3368);
    (py "mallorca-palma-de-mallorca", 237);
    (py "osasuna-pamplona", 331);
    (py "rayo-vallecano-madrid", 367);
    (py "real-betis-sevilla", 150);
    (py "real-madrid-madrid", 418);
    (py "real-oviedo-oviedo", 2497);
    (py "real-sociedad-san-sebastian", 681);
    (py "sevilla-sevilla", 368);
    (py "valencia-valencia", 1049);
    (py "villarreal-villarreal", 1050) ].

(** ** Name normaliser (lines 42-49) *)

Section Normaliser.
Context `{Unicode}.

Definition remove_accents (text : str) : str :=
  List.filter (fun c => negb (is_Mn c)) (nfd text).

(** [full_name.strip().split()[0]] raises [IndexError] when the split is
    empty. *)
Definition extract_first_name (full_name : str) : result str :=
  match split (strip full_name) with
  | [] => Raise IndexError
  | tok :: _ => Ok (lower (remove_accents tok))
  end.

End Normaliser.

(** ** The outside world of the provider client *)

(** What a cache file holds: a JSON array of names, or bytes that
    [json.load] rejects. *)
Inductive file_body : Type :=
  | Json (names : list str)
  | Garbage.

Record file : Type := { mtime : Q; body : file_body }.

(** What [requests.get] does: raise, or answer with a status code and a
    body; [players = None] is a body on which line 68 raises. *)
Inductive response : Type :=
  | ConnectionError
  | Response (status_code : Z) (players : option (list str)).

(** The clock (seconds), the cache directory (one file per club id, named
    [cache/club_{club_id}.json]) and, per club id, the answers the provider
    will give to the coming requests. *)
Record World : Type := {
  clock : Q;
  cache : gmap Z file;
  network : gmap Z (list response)
}.

(** [time.sleep(seconds)] *)
Definition sleep (seconds : Q) (w : World) : World :=
  {| clock := (clock w + seconds)%Q; cache := cache w; network := network w |}.

(** [requests.get(f"{API_BASE}/clubs/{club_id}/players")] *)
Definition requests_get (club_id : Z) (w : World) : World * response :=
  match network w !! club_id with
  | Some (r :: rs) =>
      ({| clock := clock w; cache := cache w;
          network := <[club_id := rs]> (network w) |}, r)
  | _ => (w, ConnectionError)
  end.

(** [with open(cache_file, "w") as f: json.dump(data, f)] *)
Definition write_cache (club_id : Z) (data : list str) (w : World) : World :=
  {| clock := clock w;
     cache := <[club_id := {| mtime := clock w; body := Json data |}]> (cache w);
     network := network w |}.

(** ** Provider client (lines 51-75) *)

Definition is_cache_fresh (club_id : Z) (w : World) : bool :=
  match cache w !! club_id with
  | None => false
  | Some f =>
      let file_age_hours := ((clock w - mtime f) / 3600)%Q in
      if Qlt_le_dec file_age_hours MAX_CACHE_AGE_HOURS then true else false
  end.

(** The [for attempt in range(MAX_RETRIES)] loop and the [return []] after
    it.  A status other than 200 and an exception both end in the [sleep] of
    line 74. *)
Fixpoint fetch_attempts (club_id : Z) (attempts : list nat) (w : World)
  : World * result (list str) :=
  match attempts with
  | [] => (w, Ok [])
  | attempt :: rest =>
      let '(w1, resp) := requests_get club_id w in
      match resp with
      | Response code (Some data) =>
          if code =? 200
          then (write_cache club_id data w1, Ok data)
          else fetch_attempts club_id rest (sleep (1.5 + inject_Z (Z.of_nat attempt)) w1)
      | _ => fetch_attempts club_id rest (sleep (1.5 + inject_Z (Z.of_nat attempt)) w1)
      end
  end.

Definition fetch_or_load_players (club_id : Z) (slug : str) (w : World)
  : World * result (list str) :=
  if is_cache_fresh club_id w
  then match cache w !! club_id with
       | Some {| body := Json names |} => (w, Ok names)
       | _ => (w, Raise JSONDecodeError)
       end
  else fetch_attempts club_id (seq 0 MAX_RETRIES) w.

(** ** The input table and the report *)

(** One row of the uploaded table, projected on the two columns of line 79;
    [None] is a missing cell (NaN). *)
Record sheet_row : Type := {
  player_display_name : option str;
  team_slug : option str
}.

(** [df[["player_display_name", "team_slug"]].dropna()] *)
Fixpoint dropna (df : list sheet_row) : list (str * str) :=
  match df with
  | [] => []
  | {| player_display_name := Some n; team_slug := Some s |} :: df' =>
      (n, s) :: dropna df'
  | _ :: df' => dropna df'
  end.

(** [df[df["team_slug"] == slug]["player_display_name"]] *)
Definition subset_of (slug : str) (df : list (str * str)) : list str :=
  List.map fst (List.filter (fun r => bool_decide (snd r = slug)) df).

(** The four glyphs of the column "Match validé ?". *)
Inductive glyph : Type :=
  | CheckMark   (* U+2705 *)
  | WarningSign (* U+26A0 U+FE0F *)
  | CrossMark   (* U+274C *)
  | NewButton.  (* U+1F195 *)

(** The strings of the column "Type". *)
Inductive label : Type :=
  | MatchExact    (* "match exact" *)
  | MatchPartiel  (* "match partiel" *)
  | NonTrouve     (* "non trouvé transfermarkt (parti du club ?)" *)
  | NouveauJoueur (* "nouveau joueur à ajouter à ta data sheet" *).

(** One dict of [results]; [similarite = None] is the empty string. *)
Record Row : Type := {
  nom_joueur : str;          (* "Nom du joueur dans ta liste" *)
  club : str;                (* "Club attribué dans ta liste" *)
  nom_tm : str;              (* "Nom trouvé dans Transfermarkt" *)
  similarite : option Q;     (* "Similarité (%)" *)
  valide : glyph;            (* "Match validé ?" *)
  type_ : label              (* "Type" *)
}.

(** [round(score, 2)]: to the nearest hundredth, ties to even. *)
Definition round2 (score : Q) : Q :=
  let x := (score * 100)%Q in
  let lo := Qfloor x in
  let frac := (x - inject_Z lo)%Q in
  let n := match (frac ?= 1 # 2)%Q with
           | Lt => lo
           | Gt => lo + 1
           | Eq => if Z.even lo then lo else lo + 1
           end in
  (n # 100)%Q.

(** ** Reconciliation (lines 77-153) *)

(** [l.count(x)] *)
Fixpoint count (l : list str) (x : str) : nat :=
  match l with
  | [] => 0%nat
  | y :: l' => if decide (y = x) then S (count l' x) else count l' x
  end.

(** [scores.sort(key=lambda x: x[1], reverse=True)].  Python's sort is
    stable, also with [reverse=True], so on keys that are totally ordered its
    result is the one of any stable sort; the model is the insertion sort
    that keeps, among equal scores, the order of the list. *)
Fixpoint insert_desc (x : str * Q) (l : list (str * Q)) : list (str * Q) :=
  match l with
  | [] => [x]
  | y :: l' =>
      if Qlt_le_dec (snd x) (snd y) then y :: insert_desc x l' else x :: l
  end.

Fixpoint sort_desc (l : list (str * Q)) : list (str * Q) :=
  match l with
  | [] => []
  | x :: l' => insert_desc x (sort_desc l')
  end.

(** What the loop over the user rows of one club carries. *)
Record pass_state : Type := {
  results : list Row;
  matched_tm_names : gset (list N);
  matched_sheet_names : gset (list N)
}.

Section Engine.
Context `{Unicode} `{Fuzz}.

(** Lines 105-110: the score of one candidate for one user name. *)
Definition candidate_score (name player_first : str)
    (all_transfer_firsts all_sheet_firsts : list str) (candidate : str)
  : result Q :=
  let score := token_sort_ratio (remove_accents name) (remove_accents candidate) in
  let? candidate_first := extract_first_name candidate in
  Ok (if decide (candidate_first = player_first)
      then if decide (count all_transfer_firsts player_first = 1%nat
                      /\ count all_sheet_firsts player_first = 1%nat)
           then Qmin (score + 25) 100
           else score
      else score).

(** Lines 104-112: the loop over [tm_players], appending to [scores]. *)
Fixpoint score_candidates (name player_first : str)
    (all_transfer_firsts all_sheet_firsts : list str)
    (candidates : list str) (scores : list (str * Q))
  : result (list (str * Q)) :=
  match candidates with
  | [] => Ok scores
  | candidate :: rest =>
      let? score := candidate_score name player_first
                      all_transfer_firsts all_sheet_firsts candidate in
      score_candidates name player_first all_transfer_firsts all_sheet_firsts
        rest (scores ++ [(candidate, score)])
  end.

(** Lines 114-115. *)
Definition best_of (scores : list (str * Q)) : str * Q :=
  match sort_desc scores with
  | x :: _ => x
  | [] => ([], 0%Q)
  end.

(** Lines 117-137: threshold, bookkeeping and the row appended. *)
Definition record_outcome (name slug : str) (best0 : str) (score : Q)
    (st : pass_state) : pass_state :=
  let best := if Qle_bool 65 score then best0 else [] in
  let status := if Qle_bool 90 score then CheckMark
                else if Qle_bool 65 score then WarningSign
                else CrossMark in
  let matched_tm := if truthy best then {[best]} ∪ matched_tm_names st
                    else matched_tm_names st in
  let matched_sheet := if truthy best then {[name]} ∪ matched_sheet_names st
                       else matched_sheet_names st in
  let type_value := if Qle_bool 90 score then MatchExact
                    else if Qle_bool 65 score then MatchPartiel
                    else NonTrouve in
  {| results := results st ++
       [ {| nom_joueur := name;
            club := slug;
            nom_tm := best;
            similarite := if truthy best then Some (round2 score) else None;
            valide := if truthy best then status else CrossMark;
            type_ := type_value |} ];
     matched_tm_names := matched_tm;
     matched_sheet_names := matched_sheet |}.

(** Lines 100-137: the body of the loop over the rows of [subset]. *)
Definition user_row (slug : str) (tm_players : list str)
    (all_transfer_firsts all_sheet_firsts : list str)
    (name : str) (st : pass_state) : result pass_state :=
  let? player_first := extract_first_name name in
  let? scores := score_candidates name player_first
                   all_transfer_firsts all_sheet_firsts tm_players [] in
  let '(best, score) := best_of scores in
  Ok (record_outcome name slug best score st).

(** Line 99: [for _, row in subset.iterrows()]. *)
Fixpoint user_rows (slug : str) (tm_players : list str)
    (all_transfer_firsts all_sheet_firsts : list str)
    (names : list str) (st : pass_state) : result pass_state :=
  match names with
  | [] => Ok st
  | name :: rest =>
      let? st1 := user_row slug tm_players all_transfer_firsts
                    all_sheet_firsts name st in
      user_rows slug tm_players all_transfer_firsts all_sheet_firsts rest st1
  end.

(** Lines 141-148: the row of a provider name nobody matched. *)
Definition new_player_row (slug tm_name : str) : Row :=
  {| nom_joueur := [];
     club := slug;
     nom_tm := tm_name;
     similarite := None;
     valide := NewButton;
     type_ := NouveauJoueur |}.

(** Lines 139-148: the loop over [tm_players] that appends these rows. *)
Fixpoint new_player_rows (slug : str) (matched : gset (list N))
    (tm_players : list str) (results : list Row) : list Row :=
  match tm_players with
  | [] => results
  | tm_name :: rest =>
      new_player_rows slug matched rest
        (if decide (tm_name ∉ matched)
         then results ++ [new_player_row slug tm_name]
         else results)
  end.

(** Lines 93-148: what one iteration of the loop over the clubs does to
    [results] once [subset] and [tm_players] are known to be non-empty. *)
Definition club_pass (slug : str) (subset tm_players : list str)
    (results0 : list Row) : result (list Row) :=
  let? all_transfer_firsts := comprehension extract_first_name tm_players in
  let? all_sheet_firsts := comprehension extract_first_name subset in
  let? st := user_rows slug tm_players all_transfer_firsts all_sheet_firsts
               subset
               {| results := results0;
                  matched_tm_names := ∅;
                  matched_sheet_names := ∅ |} in
  Ok (new_player_rows slug (matched_tm_names st) tm_players (results st)).

(** Lines 82-151: the loop over [enumerate(CLUB_SLUG_TO_ID.items(),
    start=1)].  [continue] skips the rest of the body, the pause of lines
    150-151 included. *)
Fixpoint clubs_loop (df : list (str * str)) (items : list (nat * (str * Z)))
    (results0 : list Row) (w : World) : World * result (list Row) :=
  match items with
  | [] => (w, Ok results0)
  | (i, (slug, club_id)) :: rest =>
      let subset := subset_of slug df in
      match subset with
      | [] => clubs_loop df rest results0 w
      | _ =>
          match fetch_or_load_players club_id slug w with
          | (w1, Raise e) => (w1, Raise e)
          | (w1, Ok []) => clubs_loop df rest results0 w1
          | (w1, Ok tm_players) =>
              let w2 := sleep 1 w1 in
              match club_pass slug subset tm_players results0 with
              | Raise e => (w2, Raise e)
              | Ok results1 =>
                  clubs_loop df rest results1
                    (if decide (i = PAUSE_AFTER) then sleep PAUSE_SECONDS w2
                     else w2)
              end
          end
      end
  end.

(** [enumerate(l, start)] *)
Fixpoint enumerate {A} (l : list A) (start : nat) : list (nat * A) :=
  match l with
  | [] => []
  | a :: l' => (start, a) :: enumerate l' (S start)
  end.

Definition verifier_effectifs (df : list sheet_row) (w : World)
  : World * result (list Row) :=
  clubs_loop (dropna df) (enumerate CLUB_SLUG_TO_ID 1) [] w.

End Engine.

(** ** Instances of the imported interfaces *)

(** [str.lower] on a code point of Basic Latin. *)
Definition lower_cp (c : N) : N :=
  if ((65 <=? c) && (c <=? 90))%N then (c + 32)%N else c.

(** The Unicode tables on Basic Latin: for text whose code points are below
    128, NFD changes nothing, no code point has category Mn and [str.lower]
    maps A-Z to a-z.  U+0300-U+036F (combining diacritical marks) are Mn.
    The sample inputs below are such text. *)
Definition basic_latin : Unicode :=
  {| nfd := fun s => s;
     is_Mn := fun c => ((768 <=? c) && (c <=? 879))%N;
     lower := List.map lower_cp |}.

Module Metric.

(** Modelled from the spec: the similarity metric of section 4.3, which the
    source imports from [rapidfuzz] ([fuzz.token_sort_ratio]) and whose code
    is no part of the repository.  The definitions of this module are that
    model; this one is the length of a longest common subsequence. *)
Fixpoint lcs (a b : str) : nat :=
  match a with
  | [] => 0%nat
  | x :: a' =>
      (fix lcs_row (b : str) : nat :=
         match b with
         | [] => 0%nat
         | y :: b' =>
             if decide (x = y) then S (lcs a' b')
             else Nat.max (lcs a' b) (lcs_row b')
         end) b
  end.

(** Modelled from the spec: a similarity in the range 0-100 on which
    identical strings score 100, by insertions and deletions:
    [100 * (1 - (|a| + |b| - 2 lcs) / (|a| + |b|))], and 100 for two empty
    strings; as a fraction in lowest terms. *)
Definition ratio (a b : str) : Q :=
  let n := (length a + length b)%nat in
  match n with
  | O => 100%Q
  | _ => Qred (Z.of_nat (200 * lcs a b) # Pos.of_nat n)
  end.

(** Code-point order of two strings, as [<=] on [str] in Python. *)
Fixpoint str_leb (a b : str) : bool :=
  match a, b with
  | [], _ => true
  | _ :: _, [] => false
  | x :: a', y :: b' =>
      if (x <? y)%N then true
      else if (y <? x)%N then false
      else str_leb a' b'
  end.

Fixpoint insert_token (t : str) (l : list str) : list str :=
  match l with
  | [] => [t]
  | u :: l' => if str_leb t u then t :: l else u :: insert_token t l'
  end.

(** [sorted(tokens)] *)
Fixpoint sorted (l : list str) : list str :=
  match l with
  | [] => []
  | t :: l' => insert_token t (sorted l')
  end.

(** [" ".join(tokens)] *)
Fixpoint join (l : list str) : str :=
  match l with
  | [] => []
  | [t] => t
  | t :: l' => t ++ 32%N :: join l'
  end.

(** Modelled from the spec: the similarity metric, which the source
    imports from [rapidfuzz] ([fuzz.token_sort_ratio]) and whose code is no
    part of the repository.  Section 4.3 asks for a token-order-insensitive
    similarity of the two full strings in the range 0-100 on which
    identical strings score 100; as the imported function documents it, the
    white-space separated tokens of each string are sorted and joined by
    one space, and the two results are compared by [ratio]. *)
Definition token_sort_ratio (s1 s2 : str) : Q :=
  ratio (join (sorted (split s1))) (join (sorted (split s2))).

End Metric.

Definition indel : Fuzz := {| token_sort_ratio := Metric.token_sort_ratio |}.

(** ** Vocabulary of the report *)

(** A row of a user name (lines 130-137), as opposed to a row of an
    unclaimed provider name (lines 141-148). *)
Definition is_outcome (r : Row) : bool :=
  match valide r with NewButton => false | _ => true end.

(** The rows of a user name whose accepted match is [e]. *)
Definition claimed_by (e : str) (r : Row) : bool :=
  is_outcome r && bool_decide (nom_tm r = e).

(** The "new player" rows of [e]. *)
Definition unclaimed_as (e : str) (r : Row) : bool :=
  negb (is_outcome r) && bool_decide (nom_tm r = e).

Definition claims (e : str) (rows : list Row) : nat :=
  length (List.filter (claimed_by e) rows).

Definition news (e : str) (rows : list Row) : nat :=
  length (List.filter (unclaimed_as e) rows).

Section Vocabulary.
Context `{Unicode} `{Fuzz}.

(** The user name [name] has [e] as its best candidate with a score of at
    least 65, given the first tokens of the two sides of the batch. *)
Definition picks (tm_players all_transfer_firsts all_sheet_firsts : list str)
    (e : str) (name : str) : bool :=
  match extract_first_name name with
  | Ok player_first =>
      match score_candidates name player_first all_transfer_firsts
              all_sheet_firsts tm_players [] with
      | Ok scores =>
          bool_decide (fst (best_of scores) = e)
          && Qle_bool 65 (snd (best_of scores))
      | Raise _ => false
      end
  | Raise _ => false
  end.

(** The rows of one club, in the words of the report's layout: one row per
    user name, in the order of the table, then one row per provider name
    that no row of a user name carries, in the order of the provider. *)
Definition club_block (slug : str) (subset tm_players : list str)
    (block : list Row) : Prop :=
  exists outcomes unclaimed : list Row,
    block = outcomes ++ unclaimed
    /\ List.map nom_joueur outcomes = subset
    /\ Forall (fun r => club r = slug /\ is_outcome r = true) outcomes
    /\ Forall (fun r => club r = slug /\ is_outcome r = false
                        /\ nom_joueur r = []) unclaimed
    /\ List.map nom_tm unclaimed =
         List.filter (fun e => negb (bool_decide (e ∈ List.map nom_tm outcomes)))
           tm_players.

(** Between two clubs only time passes: the second of line 91 and, after
    the tenth catalog entry, the pause of line 151. *)
Definition paused (w1 w2 : World) : Prop :=
  w2 = sleep 1 w1 \/ w2 = sleep PAUSE_SECONDS (sleep 1 w1).

(** The report, in the words of its layout: the blocks of the clubs in the
    order of the catalog, nothing for a club without rows in the table or
    without provider data. *)
Inductive report_of (df : list (str * str))
  : list (str * Z) -> World -> list Row -> Prop :=
  | report_done w :
      report_of df [] w []
  | report_absent slug club_id catalog w rows :
      subset_of slug df = [] ->
      report_of df catalog w rows ->
      report_of df ((slug, club_id) :: catalog) w rows
  | report_no_data slug club_id catalog w w1 rows :
      subset_of slug df <> [] ->
      fetch_or_load_players club_id slug w = (w1, Ok []) ->
      report_of df catalog w1 rows ->
      report_of df ((slug, club_id) :: catalog) w rows
  | report_club slug club_id catalog w w1 w2 tm_players block rows :
      subset_of slug df <> [] ->
      fetch_or_load_players club_id slug w = (w1, Ok tm_players) ->
      tm_players <> [] ->
      club_block slug (subset_of slug df) tm_players block ->
      paused w1 w2 ->
      report_of df catalog w2 rows ->
      report_of df ((slug, club_id) :: catalog) w (block ++ rows).

End Vocabulary.

(** A table row with an unknown club: its slug is no key of the catalog. *)
Definition unknown_club (r : sheet_row) : bool :=
  match team_slug r with
  | Some s => negb (bool_decide (s ∈ List.map fst CLUB_SLUG_TO_ID))
  | None => false
  end.

(** The rows of a result; none when it is an exception. *)
Definition rows_of (r : result (list Row)) : list Row :=
  match r with
  | Ok rows => rows
  | Raise _ => []
  end.

Definition report_rows (run : World * result (list Row)) : list Row :=
  rows_of (snd run).

(** ** Sample inputs *)

Definition sheet (name slug : string) : sheet_row :=
  {| player_display_name := Some (py name); team_slug := Some (py slug) |}.

(** A world whose cache holds, for each listed club id, a file written at
    time 0 with the given provider names; the clock shows one hour. *)
Definition cached (files : list (Z * list str)) : World :=
  {| clock := 3600;
     cache := list_to_map
                (List.map (fun f => (fst f, {| mtime := 0; body := Json (snd f) |}))
                   files);
     network := ∅ |}.

(** Two spellings of one player in the table, one provider name. *)
Definition madrid_table : list sheet_row :=
  [ sheet "Luka Modric" "real-madrid-madrid";
    sheet "Modric Luka" "real-madrid-madrid" ].

Definition madrid_world : World := cached [ (418, [py "Luka Modric"]) ].

(** A provider list that holds one name twice. *)
Definition barcelona_table : list sheet_row := [ sheet "Gavi" "barcelona-barcelona" ].

Definition barcelona_world : World := cached [ (131, [py "Pedri"; py "Pedri"]) ].

(** A table in another order than the catalog, with a club that is no key
    of the catalog and a row without club; Barcelona is served from the
    cache, Villarreal by the second request, Celta not at all. *)
Definition league_table : list sheet_row :=
  [ sheet "Gerard Moreno" "villarreal-villarreal";
    sheet "Pedri Gonzalez" "barcelona-barcelona";
    sheet "Erling Haaland" "manchester-city";
    {| player_display_name := Some (py "Nobody"); team_slug := None |};
    sheet "Iago Aspas" "celta-de-vigo-vigo";
    sheet "Gavi" "barcelona-barcelona" ].

Definition league_world : World :=
  {| clock := 3600;
     cache := {[ 131 := {| mtime := 0;
                           body := Json [py "Gavi"; py "Lamine Yamal"; py "Pedri"] |} ]};
     network := {[ 1050 := [ Response 503 None;
                             Response 200 (Some [py "Gerard Moreno"; py "Alex Baena"]) ] ]} |}.

(** A fresh cache file that is no JSON. *)
Definition corrupt_world : World :=
  {| clock := 3600;
     cache := {[ 13 := {| mtime := 0; body := Garbage |} ]};
     network := {[ 13 := [ Response 200 (Some [py "Antoine Griezmann"]) ] ]} |}.

(** The batch of the boost: one user name, two provider names, the first
    token "jon" once on each side. *)
Definition jon_names : list str := [ py "Jon Smith" ].
Definition jon_providers : list str := [ py "Jon Garcia"; py "Jonathan Perez" ].

(** A provider list with two names of maximal score for "Jon Smith". *)
Definition tie_providers : list str :=
  [ py "Jon Garcia"; py "Jon Smith"; py "Smith Jon" ].

Definition squad : list str := [ py "Gavi"; py "Lamine Yamal"; py "Pedri" ].

Definition fresh_pass : pass_state :=
  {| results := []; matched_tm_names := ∅; matched_sheet_names := ∅ |}.

(** ** Vocabulary of the provider client *)

(** The answers the provider still has to give for a club. *)
Definition pending (club_id : Z) (w : World) : list response :=
  default [] (network w !! club_id).

(** An answer that lines 67-71 turn into a result: status 200 and a body
    from which line 68 builds the list of names. *)
Definition usable (r : response) : bool :=
  match r with
  | Response code (Some _) => code =? 200
  | _ => false
  end.

(** The seconds slept by line 74 over the given attempts. *)
Definition total_sleep (attempts : list nat) : Q :=
  fold_right (fun attempt acc => ((1.5 + inject_Z (Z.of_nat attempt)) + acc)%Q)
    0%Q attempts.

(** A provider that answers the third request, and one that has no usable
    answer among the first three. *)
Definition flaky_world : World :=
  {| clock := 0;
     cache := ∅;
     network := {[ 418 := [ ConnectionError;
                            Response 503 None;
                            Response 200 (Some [py "Luka Modric"]);
                            Response 200 (Some [py "Vinicius Junior"]) ] ]} |}.

Definition dead_world : World :=
  {| clock := 0;
     cache := ∅;
     network := {[ 418 := [ ConnectionError;
                            Response 404 (Some [py "Luka Modric"]);
                            Response 200 None;
                            Response 200 (Some [py "Luka Modric"]) ] ]} |}.


(** ** Vocabulary of the rows *)

Section RowVocabulary.
Context `{Unicode}.

(** The test of lines 108-109 for a user name and a candidate: both have a
    first token, the tokens are equal, and the token occurs once in each of
    the two lists of first tokens. *)
Definition boosted_pair (all_transfer_firsts all_sheet_firsts : list str)
    (name candidate : str) : bool :=
  match extract_first_name name, extract_first_name candidate with
  | Ok player_first, Ok candidate_first =>
      bool_decide (candidate_first = player_first
                   /\ count all_transfer_firsts player_first = 1%nat
                   /\ count all_sheet_firsts player_first = 1%nat)
  | _, _ => false
  end.

End RowVocabulary.

(** The fields of a row agree with each other: a "new player" row has a
    provider name and nothing else; a row of a user name has that name, and
    either a match name with a similarity, the glyph and the type of its
    score, or none of them. *)
Definition well_formed (r : Row) : Prop :=
  match valide r with
  | NewButton =>
      nom_joueur r = [] /\ nom_tm r <> [] /\ similarite r = None
      /\ type_ r = NouveauJoueur
  | CheckMark =>
      nom_joueur r <> [] /\ nom_tm r <> [] /\ type_ r = MatchExact
      /\ exists score, similarite r = Some (round2 score) /\ (90 <= score)%Q
  | WarningSign =>
      nom_joueur r <> [] /\ nom_tm r <> [] /\ type_ r = MatchPartiel
      /\ exists score, similarite r = Some (round2 score)
                       /\ (65 <= score)%Q /\ (score < 90)%Q
  | CrossMark =>
      nom_joueur r <> [] /\ nom_tm r = [] /\ similarite r = None
      /\ type_ r = NonTrouve
  end.


(** A cache file older than a day that is no JSON, and a provider that
    answers. *)
Definition stale_world : World :=
  {| clock := 90000;
     cache := {[ 418 := {| mtime := 0; body := Garbage |} ]};
     network := {[ 418 := [ Response 200 (Some [py "Luka Modric"]) ] ]} |}.

(** A table without a complete row of a club of the catalog. *)
Definition foreign_table : list sheet_row :=
  [ sheet "Erling Haaland" "manchester-city";
    {| player_display_name := Some (py "Nobody"); team_slug := None |};
    {| player_display_name := None; team_slug := Some (py "real-madrid-madrid") |} ].


(** ** Properties *)

(** *** The normaliser *)

Lemma lstrip_blank (s : str) : forallb isspace s = true -> lstrip s = [].
Proof.
  induction s as [|c s IH]; simpl; [reflexivity|].
  intros Hs. apply andb_prop in Hs as [Hc Hs]. rewrite Hc. auto.
Qed.

Lemma strip_blank (s : str) : forallb isspace s = true -> strip s = [].
Proof. intros Hs. unfold strip. rewrite (lstrip_blank s Hs). reflexivity. Qed.

Lemma lstrip_keeps (c : N) (s : str) :
  In c s -> isspace c = false -> In c (lstrip s).
Proof.
  induction s as [|d s IH]; simpl; [tauto|].
  intros [->|Hin] Hc.
  - rewrite Hc. left. reflexivity.
  - destruct (isspace d); [auto | right; assumption].
Qed.

Lemma strip_keeps (c : N) (s : str) :
  In c s -> isspace c = false -> In c (strip s).
Proof.
  intros Hin Hc. unfold strip.
  apply -> in_rev. apply lstrip_keeps; [|assumption].
  apply -> in_rev. apply lstrip_keeps; assumption.
Qed.

Lemma split_from_pending (tok s : str) : tok <> [] -> split_from tok s <> [].
Proof.
  revert tok. induction s as [|c s IH]; intros tok Htok; simpl.
  - destruct tok; [contradiction | discriminate].
  - destruct (isspace c).
    + destruct tok; [contradiction | discriminate].
    + apply IH. discriminate.
Qed.

Lemma split_from_token (c : N) (tok s : str) :
  In c s -> isspace c = false -> split_from tok s <> [].
Proof.
  revert tok. induction s as [|d s IH]; intros tok Hin Hc; simpl; [destruct Hin|].
  destruct Hin as [->|Hin].
  - rewrite Hc. apply split_from_pending. discriminate.
  - destruct (isspace d).
    + destruct tok; [apply IH; assumption | discriminate].
    + apply IH; assumption.
Qed.

Section NormaliserFacts.
Context `{Unicode}.

(** A name with a code point that is no white space has a first token. *)
Lemma extract_first_name_defined (s : str) :
  (exists c, In c s /\ isspace c = false) ->
  exists t, extract_first_name s = Ok t.
Proof.
  intros (c & Hin & Hc). unfold extract_first_name, split.
  pose proof (split_from_token c [] (strip s) (strip_keeps c s Hin Hc) Hc) as Hne.
  destruct (split_from [] (strip s)) as [|tok toks]; [contradiction|].
  eexists. reflexivity.
Qed.

Lemma extract_first_name_blank_raises (s : str) :
  forallb isspace s = true -> extract_first_name s = Raise IndexError.
Proof.
  intros Hs. unfold extract_first_name. rewrite (strip_blank s Hs). reflexivity.
Qed.

(** C1: on the empty name and on every name made of white space only,
    [extract_first_name] raises [IndexError] (the [[0]] of line 49 on an
    empty [split()]): it is total on the names that hold a code point
    other than white space, and on those only, and the empty name has no
    first token. *)
Theorem extract_first_name_total_iff (s : str) :
  (extract_first_name [] = Raise IndexError)
  /\ ((exists t, extract_first_name s = Ok t)
      <-> exists c, In c s /\ isspace c = false)
  /\ (extract_first_name s = Raise IndexError <-> forallb isspace s = true).
Proof.
  split; [reflexivity|].
  assert (Hdich : forallb isspace s = true \/ exists c, In c s /\ isspace c = false).
  { induction s as [|c s IH]; [left; reflexivity|]. simpl.
    destruct (isspace c) eqn:Hc.
    - destruct IH as [IH|(d & Hd & Hsp)]; [left; exact IH|].
      right. exists d. split; [right|]; assumption.
    - right. exists c. split; [left; reflexivity | exact Hc]. }
  split; split.
  - intros [t Ht]. destruct Hdich as [Hb|Hc]; [|exact Hc].
    rewrite (extract_first_name_blank_raises s Hb) in Ht. discriminate.
  - apply extract_first_name_defined.
  - intros Hr. destruct Hdich as [Hb|Hc]; [exact Hb|].
    destruct (extract_first_name_defined s Hc) as [t Ht]. congruence.
  - apply extract_first_name_blank_raises.
Qed.

(** A name with a first token is a non-empty string. *)
Lemma extract_first_name_truthy (s t : str) :
  extract_first_name s = Ok t -> truthy s = true.
Proof. destruct s; [discriminate | reflexivity]. Qed.

End NormaliserFacts.

(** *** Exceptions in comprehensions *)

Lemma comprehension_Forall2 {A B} (f : A -> result B) (l : list A) (bs : list B) :
  comprehension f l = Ok bs -> Forall2 (fun a b => f a = Ok b) l bs.
Proof.
  revert bs. induction l as [|a l IH]; simpl; intros bs Hc.
  - injection Hc as <-. constructor.
  - destruct (f a) as [b|e] eqn:Hfa; simpl in Hc; [|discriminate].
    destruct (comprehension f l) as [bs'|e]; simpl in Hc; [|discriminate].
    injection Hc as <-. constructor; auto.
Qed.

Lemma comprehension_defined {A B} (f : A -> result B) (l : list A) (bs : list B) (a : A) :
  comprehension f l = Ok bs -> In a l -> exists b, f a = Ok b.
Proof.
  intros Hc Hin. apply comprehension_Forall2 in Hc.
  induction Hc as [|a' b l' bs' Hab _ IH]; [destruct Hin|].
  destruct Hin as [->|Hin]; eauto.
Qed.

Lemma comprehension_total {A B} (f : A -> result B) (l : list A) :
  (forall a, In a l -> exists b, f a = Ok b) ->
  exists bs, comprehension f l = Ok bs.
Proof.
  induction l as [|a l IH]; intros Hall; simpl; [eauto|].
  destruct (Hall a (or_introl eq_refl)) as [b ->].
  destruct IH as [bs ->]; [intros; apply Hall; right; assumption|].
  simpl. eauto.
Qed.

(** *** The sort and its first element *)

Lemma insert_desc_head (x : str * Q) (l : list (str * Q)) :
  exists tl, insert_desc x l =
    match l with
    | [] => x
    | y :: _ => if Qlt_le_dec (snd x) (snd y) then y else x
    end :: tl.
Proof.
  destruct l as [|y l]; simpl; [eauto|].
  destruct (Qlt_le_dec (snd x) (snd y)); eauto.
Qed.

(** The first element of the sorted list is the first element of the list
    among those of maximal score. *)
Lemma sort_desc_head (l : list (str * Q)) :
  l <> [] ->
  exists before x after tl,
    sort_desc l = x :: tl
    /\ l = before ++ x :: after
    /\ Forall (fun y => (snd y < snd x)%Q) before
    /\ Forall (fun y => (snd y <= snd x)%Q) after.
Proof.
  induction l as [|x l IH]; [contradiction|]. intros _.
  destruct l as [|x' l'].
  - exists [], x, [], []. repeat split; constructor.
  - destruct IH as (before & m & after & tl & Hsort & Hl & Hbefore & Hafter);
      [discriminate|].
    cbn [sort_desc] in Hsort |- *. rewrite Hsort.
    destruct (insert_desc_head x (m :: tl)) as [tl' Hhd]. rewrite Hhd.
    destruct (Qlt_le_dec (snd x) (snd m)) as [Hlt|Hle].
    + exists (x :: before), m, after, tl'. rewrite Hl.
      repeat split; [constructor|]; assumption.
    + exists [], x, (x' :: l'), tl'. rewrite Hl.
      repeat split; [constructor|].
      apply Forall_app. split; [|constructor].
      * eapply Forall_impl; [exact Hbefore|]. simpl. intros y Hy.
        apply Qlt_le_weak. eapply Qlt_le_trans; eassumption.
      * assumption.
      * eapply Forall_impl; [exact Hafter|]. simpl. intros y Hy.
        eapply Qle_trans; eassumption.
Qed.

(** The sort permutes the list. *)
Lemma insert_desc_perm (x : str * Q) (l : list (str * Q)) :
  Permutation (x :: l) (insert_desc x l).
Proof.
  induction l as [|y l IH]; simpl; [reflexivity|].
  destruct (Qlt_le_dec (snd x) (snd y)); [|reflexivity].
  rewrite perm_swap. constructor. exact IH.
Qed.

Lemma sort_desc_perm (l : list (str * Q)) : Permutation l (sort_desc l).
Proof.
  induction l as [|x l IH]; simpl; [reflexivity|].
  rewrite <- insert_desc_perm. constructor. exact IH.
Qed.

(** The sort orders by descending score ... *)
Lemma insert_desc_sorted (x : str * Q) (l : list (str * Q)) :
  StronglySorted (fun a b => (snd b <= snd a)%Q) l ->
  StronglySorted (fun a b => (snd b <= snd a)%Q) (insert_desc x l).
Proof.
  induction 1 as [|y l Hsorted IH Hy]; simpl.
  - repeat constructor.
  - destruct (Qlt_le_dec (snd x) (snd y)) as [Hlt|Hle].
    + constructor; [exact IH|].
      rewrite <- insert_desc_perm. constructor; [|exact Hy].
      apply Qlt_le_weak, Hlt.
    + constructor; [constructor; assumption|].
      constructor; [exact Hle|].
      eapply Forall_impl; [exact Hy|]. simpl. intros z Hz.
      eapply Qle_trans; eassumption.
Qed.

Lemma sort_desc_sorted (l : list (str * Q)) :
  StronglySorted (fun a b => (snd b <= snd a)%Q) (sort_desc l).
Proof.
  induction l as [|x l IH]; simpl; [constructor|].
  apply insert_desc_sorted, IH.
Qed.

(** ... and is stable: the pairs of any one score keep the order they have
    in the list. *)
Lemma insert_desc_stable (k : Q) (x : str * Q) (l : list (str * Q)) :
  List.filter (fun y => Qeq_bool (snd y) k) (insert_desc x l)
  = List.filter (fun y => Qeq_bool (snd y) k) (x :: l).
Proof.
  induction l as [|y l IH]; [reflexivity|]. simpl insert_desc.
  destruct (Qlt_le_dec (snd x) (snd y)) as [Hlt|Hle]; [|reflexivity].
  cbn [List.filter] in IH |- *. rewrite IH.
  destruct (Qeq_bool (snd y) k) eqn:Hy; [|reflexivity].
  destruct (Qeq_bool (snd x) k) eqn:Hx; [|reflexivity].
  apply Qeq_bool_iff in Hx, Hy. exfalso.
  apply (Qlt_irrefl k). rewrite <- Hx at 1. rewrite <- Hy. exact Hlt.
Qed.

Lemma sort_desc_stable (k : Q) (l : list (str * Q)) :
  List.filter (fun y => Qeq_bool (snd y) k) (sort_desc l)
  = List.filter (fun y => Qeq_bool (snd y) k) l.
Proof.
  induction l as [|x l IH]; [reflexivity|]. simpl sort_desc.
  rewrite insert_desc_stable. cbn [List.filter]. rewrite IH. reflexivity.
Qed.

(** *** Scores, boost and selection *)

Lemma Qmin_cases (x y : Q) :
  ((x <= y)%Q /\ Qmin x y = x) \/ ((y < x)%Q /\ Qmin x y = y).
Proof.
  unfold Qmin, GenericMinMax.gmin. destruct (x ?= y)%Q eqn:Hcmp.
  - left. split; [|reflexivity]. apply Qeq_alt in Hcmp. rewrite Hcmp. apply Qle_refl.
  - left. split; [|reflexivity]. apply Qlt_alt in Hcmp. apply Qlt_le_weak, Hcmp.
  - right. split; [|reflexivity]. apply Qgt_alt in Hcmp. exact Hcmp.
Qed.

Lemma Qle_bool_false (x y : Q) : Qle_bool x y = false <-> (y < x)%Q.
Proof.
  split.
  - intros Hb. apply Qnot_le_lt. intros Hle. apply Qle_bool_iff in Hle. congruence.
  - intros Hlt. destruct (Qle_bool x y) eqn:Hb; [|reflexivity].
    apply Qle_bool_iff in Hb. exfalso. eapply Qlt_not_le; eassumption.
Qed.

Section EngineFacts.
Context `{Unicode} `{Fuzz}.

Lemma candidate_score_defined (name pf : str) (tf sf : list str) (c cf : str) :
  extract_first_name c = Ok cf ->
  exists s, candidate_score name pf tf sf c = Ok s.
Proof. intros Hc. unfold candidate_score. rewrite Hc. simpl. eauto. Qed.

(** The loop of lines 104-112 appends one pair per candidate, in the order
    of the provider list. *)
Lemma score_candidates_appends (name pf : str) (tf sf cands : list str)
    (acc scores : list (str * Q)) :
  score_candidates name pf tf sf cands acc = Ok scores ->
  exists new,
    scores = acc ++ new
    /\ List.map fst new = cands
    /\ Forall (fun x => candidate_score name pf tf sf (fst x) = Ok (snd x)) new.
Proof.
  revert acc. induction cands as [|c cands IH]; simpl; intros acc Hs.
  - injection Hs as <-. exists []. rewrite app_nil_r. repeat split. constructor.
  - destruct (candidate_score name pf tf sf c) as [s|e] eqn:Hc; simpl in Hs;
      [|discriminate].
    destruct (IH _ Hs) as (new & -> & Hfst & Hall).
    exists ((c, s) :: new). rewrite <- app_assoc. simpl.
    repeat split; [congruence|]. constructor; assumption.
Qed.

Lemma score_candidates_total (name pf : str) (tf sf cands : list str)
    (acc : list (str * Q)) :
  (forall c, In c cands -> exists cf, extract_first_name c = Ok cf) ->
  exists scores, score_candidates name pf tf sf cands acc = Ok scores.
Proof.
  revert acc. induction cands as [|c cands IH]; simpl; intros acc Hall; [eauto|].
  destruct (Hall c (or_introl eq_refl)) as [cf Hcf].
  destruct (candidate_score_defined name pf tf sf c cf Hcf) as [s ->]. simpl.
  apply IH. intros; apply Hall; right; assumption.
Qed.

(** The scores of one user name against a provider list all of whose
    names have a first token. *)
Lemma scores_of_batch (name pf : str) (tf sf tm_players tf' : list str) :
  comprehension extract_first_name tm_players = Ok tf' ->
  exists scores,
    score_candidates name pf tf sf tm_players [] = Ok scores
    /\ List.map fst scores = tm_players
    /\ Forall (fun x => candidate_score name pf tf sf (fst x) = Ok (snd x)) scores.
Proof.
  intros Htf.
  destruct (score_candidates_total name pf tf sf tm_players [])
    as [scores Hscores].
  { intros c Hc. eapply comprehension_defined; eassumption. }
  destruct (score_candidates_appends _ _ _ _ _ _ _ Hscores)
    as (new & -> & Hfst & Hall).
  exists new. simpl in Hscores. auto.
Qed.

(** C4: in the batch of one club, where [tf] are the first tokens of the
    provider names and [sf] those of the user names, the score of user
    name [name] against each candidate is the raw similarity plus 25,
    capped at 100, when the candidate's first token equals the one of
    [name] and that token occurs exactly once in [tf] and exactly once in
    [sf]; in every other case it is the raw similarity. *)
Theorem boost_rule (subset tm_players tf sf : list str) (name : str) :
  comprehension extract_first_name tm_players = Ok tf ->
  comprehension extract_first_name subset = Ok sf ->
  In name subset ->
  exists pf scores,
    extract_first_name name = Ok pf
    /\ score_candidates name pf tf sf tm_players [] = Ok scores
    /\ List.map fst scores = tm_players
    /\ Forall (fun x =>
         exists cf, extract_first_name (fst x) = Ok cf /\
         let raw := token_sort_ratio (remove_accents name) (remove_accents (fst x)) in
         let unique := cf = pf /\ count tf pf = 1%nat /\ count sf pf = 1%nat in
         (unique -> ((raw + 25 <= 100)%Q /\ snd x = (raw + 25)%Q)
                    \/ ((100 < raw + 25)%Q /\ snd x = 100%Q))
         /\ (~ unique -> snd x = raw)) scores.
Proof.
  intros Htf Hsf Hin.
  destruct (comprehension_defined _ _ _ _ Hsf Hin) as [pf Hpf].
  destruct (scores_of_batch name pf tf sf tm_players tf Htf)
    as (scores & Hscores & Hfst & Hall).
  exists pf, scores. repeat split; try assumption.
  assert (Hcands : Forall (fun x => In (fst x) tm_players) scores).
  { rewrite <- Hfst. apply List.Forall_forall. intros x Hx. apply in_map, Hx. }
  rewrite List.Forall_forall in Hall, Hcands |- *. intros [c s] Hx.
  specialize (Hall _ Hx). specialize (Hcands _ Hx). simpl in *.
  destruct (comprehension_defined _ _ _ _ Htf Hcands) as [cf Hcf].
  exists cf. split; [assumption|].
  unfold candidate_score in Hall. rewrite Hcf in Hall. simpl in Hall.
  injection Hall as Hs.
  destruct (decide (cf = pf)) as [Heq|Hne].
  - destruct (decide (count tf pf = 1%nat /\ count sf pf = 1%nat)) as [Hu|Hnu].
    + split; [|tauto]. intros _. rewrite <- Hs.
      destruct (Qmin_cases (token_sort_ratio (remove_accents name)
                              (remove_accents c) + 25) 100) as [[Hle ->]|[Hlt ->]];
        [left | right]; split; auto.
    + split; [tauto|]. intros _. symmetry. exact Hs.
  - split; [tauto|]. intros _. symmetry. exact Hs.
Qed.

(** C6: for a user name scored against a non-empty provider list, the
    selected pair is an element of the score list, which runs in the order
    of the provider list; every pair before it has a strictly smaller
    (boosted) score and every pair after it a score that is not larger:
    the selection is a candidate of maximal score, and the first of them
    in provider order. *)
Theorem best_candidate_first_maximum (name pf : str) (tf sf tm_players tf' : list str) :
  comprehension extract_first_name tm_players = Ok tf' ->
  tm_players <> [] ->
  exists scores before best score after,
    score_candidates name pf tf sf tm_players [] = Ok scores
    /\ Forall (fun x => candidate_score name pf tf sf (fst x) = Ok (snd x)) scores
    /\ best_of scores = (best, score)
    /\ scores = before ++ (best, score) :: after
    /\ tm_players = List.map fst before ++ best :: List.map fst after
    /\ Forall (fun x => (snd x < score)%Q) before
    /\ Forall (fun x => (snd x <= score)%Q) after.
Proof.
  intros Htf Hne.
  destruct (scores_of_batch name pf tf sf tm_players tf' Htf)
    as (scores & Hscores & Hfst & Hall).
  assert (Hsne : scores <> []) by (intros ->; apply Hne; symmetry; exact Hfst).
  destruct (sort_desc_head scores Hsne)
    as (before & [best score] & after & tl & Hsort & Hsplit & Hb & Ha).
  exists scores, before, best, score, after.
  repeat split; try assumption.
  - unfold best_of. rewrite Hsort. reflexivity.
  - rewrite <- Hfst, Hsplit, List.map_app. reflexivity.
Qed.

End EngineFacts.

(** *** One user row *)

Lemma best_of_In (scores : list (str * Q)) :
  scores <> [] -> In (best_of scores) scores.
Proof.
  intros Hne.
  destruct (sort_desc_head scores Hne) as (before & x & after & tl & Hsort & -> & _).
  unfold best_of. rewrite Hsort. apply in_or_app. right. left. reflexivity.
Qed.

Section RowFacts.
Context `{Unicode} `{Fuzz}.

(** The selected candidate of a non-empty provider list is one of its
    names, hence a non-empty string. *)
Lemma best_of_batch (name pf : str) (tf sf tm_players tf' : list str)
    (scores : list (str * Q)) :
  comprehension extract_first_name tm_players = Ok tf' ->
  tm_players <> [] ->
  score_candidates name pf tf sf tm_players [] = Ok scores ->
  In (fst (best_of scores)) tm_players /\ truthy (fst (best_of scores)) = true.
Proof.
  intros Htf Hne Hscores.
  destruct (score_candidates_appends _ _ _ _ _ _ _ Hscores)
    as (new & -> & Hfst & _). simpl in *.
  assert (Hin : In (fst (best_of new)) tm_players).
  { rewrite <- Hfst. apply in_map, best_of_In. intros ->. apply Hne.
    symmetry. exact Hfst. }
  split; [exact Hin|].
  destruct (comprehension_defined _ _ _ _ Htf Hin) as [cf Hcf].
  eapply extract_first_name_truthy; eassumption.
Qed.

(** What lines 117-137 append and record, by the position of the score
    with respect to 65. *)
Lemma record_outcome_row (name slug best : str) (score : Q) (st : pass_state) :
  truthy best = true ->
  exists row,
    results (record_outcome name slug best score st) = results st ++ [row]
    /\ nom_joueur row = name /\ club row = slug /\ is_outcome row = true
    /\ ((65 <= score)%Q ->
          nom_tm row = best
          /\ matched_tm_names (record_outcome name slug best score st)
             = {[best]} ∪ matched_tm_names st)
    /\ ((score < 65)%Q ->
          nom_tm row = []
          /\ matched_tm_names (record_outcome name slug best score st)
             = matched_tm_names st).
Proof.
  intros Hbest. unfold record_outcome.
  destruct (Qle_bool 65 score) eqn:H65.
  - rewrite Hbest. eexists. split; [reflexivity|]. simpl.
    apply Qle_bool_iff in H65.
    split; [reflexivity|]. split; [reflexivity|].
    split; [unfold is_outcome; simpl; destruct (Qle_bool 90 score); reflexivity|].
    split; [intros _; split; reflexivity|].
    intros Hlt. exfalso. eapply Qlt_not_le; eassumption.
  - simpl. eexists. split; [reflexivity|]. simpl.
    apply Qle_bool_false in H65.
    split; [reflexivity|]. split; [reflexivity|]. split; [reflexivity|].
    split; [|intros _; split; reflexivity].
    intros Hle. exfalso. eapply Qlt_not_le; eassumption.
Qed.

(** C5: for a user name with a first token, scored against a non-empty
    provider list, the row appended for it depends on the best score as
    follows.  At 90 or above: type "match exact", glyph of a validated
    match, the best candidate as match name, which is recorded as matched.
    From 65 to below 90: type "match partiel", warning glyph, the best
    candidate as match name, recorded as matched.  Below 65: no match name,
    no similarity, the cross glyph, type "non trouvé", and nothing is
    recorded as matched. *)
Theorem classification_thresholds (slug name pf : str)
    (tm_players tf sf tf' : list str) (st : pass_state) :
  comprehension extract_first_name tm_players = Ok tf' ->
  tm_players <> [] ->
  extract_first_name name = Ok pf ->
  exists scores best score row st',
    score_candidates name pf tf sf tm_players [] = Ok scores
    /\ best_of scores = (best, score)
    /\ user_row slug tm_players tf sf name st = Ok st'
    /\ results st' = results st ++ [row]
    /\ nom_joueur row = name /\ club row = slug
    /\ ((90 <= score)%Q ->
          type_ row = MatchExact /\ valide row = CheckMark
          /\ nom_tm row = best /\ best <> []
          /\ similarite row = Some (round2 score)
          /\ best ∈ matched_tm_names st')
    /\ ((65 <= score)%Q -> (score < 90)%Q ->
          type_ row = MatchPartiel /\ valide row = WarningSign
          /\ nom_tm row = best /\ best <> []
          /\ similarite row = Some (round2 score)
          /\ best ∈ matched_tm_names st')
    /\ ((score < 65)%Q ->
          type_ row = NonTrouve /\ valide row = CrossMark
          /\ nom_tm row = [] /\ similarite row = None
          /\ matched_tm_names st' = matched_tm_names st).
Proof.
  intros Htf Hne Hpf.
  destruct (scores_of_batch name pf tf sf tm_players tf' Htf)
    as (scores & Hscores & _ & _).
  destruct (best_of_batch _ _ _ _ _ _ _ Htf Hne Hscores) as [_ Htruthy].
  destruct (best_of scores) as [best score] eqn:Hbest. simpl in Htruthy.
  assert (Hbne : best <> []) by (intros ->; discriminate).
  eexists scores, best, score, _, _.
  split; [exact Hscores|]. split; [exact Hbest|].
  split; [unfold user_row; rewrite Hpf; simpl; rewrite Hscores; simpl;
          rewrite Hbest; reflexivity|].
  unfold record_outcome. split; [reflexivity|]. simpl.
  split; [reflexivity|]. split; [reflexivity|].
  split; [|split].
  - intros H90.
    assert (H65 : (65 <= score)%Q)
      by (eapply Qle_trans; [|exact H90]; discriminate).
    apply Qle_bool_iff in H90, H65. rewrite H90, H65, Htruthy.
    repeat split; try assumption. set_solver.
  - intros H65 H90. apply Qle_bool_iff in H65. apply Qle_bool_false in H90.
    rewrite H90, H65, Htruthy.
    repeat split; try assumption. set_solver.
  - intros H65. pose proof H65 as H90.
    apply Qle_bool_false in H65.
    assert (H90' : Qle_bool 90 score = false).
    { apply Qle_bool_false. eapply Qlt_trans; [exact H90|]. reflexivity. }
    rewrite H90', H65. simpl. repeat split.
Qed.

End RowFacts.

(** *** One club *)

Section PassFacts.
Context `{Unicode} `{Fuzz}.

Lemma new_player_rows_appends (slug : str) (matched : gset (list N))
    (tm_players : list str) (results0 : list Row) :
  new_player_rows slug matched tm_players results0 =
    results0 ++ List.map (new_player_row slug)
                  (List.filter (fun e => negb (bool_decide (e ∈ matched))) tm_players).
Proof.
  revert results0. induction tm_players as [|e tm IH]; intros results0; simpl.
  - rewrite app_nil_r. reflexivity.
  - rewrite IH. destruct (decide (e ∉ matched)) as [Hn|Hy].
    + rewrite bool_decide_eq_false_2 by exact Hn. simpl.
      rewrite <- app_assoc. reflexivity.
    + rewrite bool_decide_eq_true_2; [reflexivity|].
      destruct (decide (e ∈ matched)); tauto.
Qed.

(** The row of one user name: its match name is [e] exactly when the name
    picks [e], and the matched set grows by the match name. *)
Lemma user_row_appends (slug name : str) (tm_players tf sf tf' : list str)
    (st st' : pass_state) :
  comprehension extract_first_name tm_players = Ok tf' ->
  tm_players <> [] ->
  user_row slug tm_players tf sf name st = Ok st' ->
  exists row,
    results st' = results st ++ [row]
    /\ nom_joueur row = name /\ club row = slug /\ is_outcome row = true
    /\ (forall e, e ∈ matched_tm_names st' <->
                  e ∈ matched_tm_names st \/ (e <> [] /\ nom_tm row = e))
    /\ (forall e, e <> [] -> (nom_tm row = e <-> picks tm_players tf sf e name = true)).
Proof.
  intros Htf Hne. unfold user_row, picks.
  destruct (extract_first_name name) as [pf|ex]; simpl; [|discriminate].
  destruct (score_candidates name pf tf sf tm_players []) as [scores|ex] eqn:Hscores;
    simpl; [|discriminate].
  destruct (best_of_batch _ _ _ _ _ _ _ Htf Hne Hscores) as [_ Htruthy].
  destruct (best_of scores) as [best score]. simpl in *.
  intros Hst. injection Hst as <-.
  destruct (record_outcome_row name slug best score st Htruthy)
    as (row & Hres & Hname & Hclub & Hout & Hacc & Hrej).
  exists row. repeat (split; [assumption|]).
  assert (Hbne : best <> []) by (intros ->; discriminate).
  destruct (Qlt_le_dec score 65) as [Hlt|Hle].
  - destruct (Hrej Hlt) as [Hnom ->].
    apply Qle_bool_false in Hlt. rewrite Hlt. split.
    + intros e. rewrite Hnom. split; [tauto|]. intros [?|[? ?]]; congruence.
    + intros e He. rewrite Hnom, andb_false_r. split; [congruence|discriminate].
  - destruct (Hacc Hle) as [Hnom ->].
    apply Qle_bool_iff in Hle. rewrite Hle. split.
    + intros e. rewrite Hnom. rewrite elem_of_union, elem_of_singleton.
      split; [intros [->|?]; auto | intros [?|[? ?]]; auto].
    + intros e He. rewrite Hnom, andb_true_r, bool_decide_eq_true. reflexivity.
Qed.

Lemma user_rows_appends (slug : str) (tm_players tf sf tf' names : list str)
    (st st' : pass_state) :
  comprehension extract_first_name tm_players = Ok tf' ->
  tm_players <> [] ->
  user_rows slug tm_players tf sf names st = Ok st' ->
  exists outcomes,
    results st' = results st ++ outcomes
    /\ List.map nom_joueur outcomes = names
    /\ Forall (fun r => club r = slug /\ is_outcome r = true) outcomes
    /\ (forall e, e ∈ matched_tm_names st' <->
                  e ∈ matched_tm_names st
                  \/ (e <> [] /\ In e (List.map nom_tm outcomes)))
    /\ Forall2 (fun n r => forall e, e <> [] ->
                  (nom_tm r = e <-> picks tm_players tf sf e n = true))
         names outcomes.
Proof.
  intros Htf Hne. revert st. induction names as [|n names IH]; simpl; intros st Hst.
  - injection Hst as <-. exists []. rewrite app_nil_r.
    repeat split; try constructor; simpl; tauto.
  - destruct (user_row slug tm_players tf sf n st) as [st1|ex] eqn:Hrow;
      simpl in Hst; [|discriminate].
    destruct (user_row_appends _ _ _ _ _ _ _ _ Htf Hne Hrow)
      as (row & Hres1 & Hname & Hclub & Hout & Hm1 & Hpick).
    destruct (IH _ Hst) as (outs & Hres & Hnames & Hall & Hm & Hpicks).
    exists (row :: outs). split; [|split; [|split; [|split]]].
    + rewrite Hres, Hres1, <- app_assoc. reflexivity.
    + simpl. congruence.
    + constructor; auto.
    + intros e. rewrite Hm, Hm1. simpl. split.
      * intros [[?|[? ?]]|[? ?]]; auto.
      * intros [?|[? [?|?]]]; auto.
    + constructor; assumption.
Qed.

(** The rows one club adds to the report. *)
Lemma club_pass_rows (slug : str) (subset tm_players : list str)
    (results0 rows : list Row) :
  tm_players <> [] ->
  club_pass slug subset tm_players results0 = Ok rows ->
  exists tf sf outcomes,
    comprehension extract_first_name tm_players = Ok tf
    /\ comprehension extract_first_name subset = Ok sf
    /\ rows = results0 ++ outcomes ++
              List.map (new_player_row slug)
                (List.filter
                   (fun e => negb (bool_decide (e ∈ List.map nom_tm outcomes)))
                   tm_players)
    /\ List.map nom_joueur outcomes = subset
    /\ Forall (fun r => club r = slug /\ is_outcome r = true) outcomes
    /\ Forall2 (fun n r => forall e, e <> [] ->
                  (nom_tm r = e <-> picks tm_players tf sf e n = true))
         subset outcomes.
Proof.
  intros Hne. unfold club_pass.
  destruct (comprehension extract_first_name tm_players) as [tf|ex] eqn:Htf;
    simpl; [|discriminate].
  destruct (comprehension extract_first_name subset) as [sf|ex] eqn:Hsf;
    simpl; [|discriminate].
  destruct (user_rows slug tm_players tf sf subset _) as [st|ex] eqn:Hst;
    simpl; [|discriminate].
  intros Hrows. injection Hrows as <-.
  destruct (user_rows_appends _ _ _ _ _ _ _ _ Htf Hne Hst)
    as (outs & Hres & Hnames & Hall & Hm & Hpicks). simpl in Hres.
  exists tf, sf, outs. repeat (split; [first [reflexivity | assumption]|]).
  split; [|auto].
  rewrite new_player_rows_appends, Hres, <- app_assoc. do 3 f_equal.
  apply List.filter_ext_in. intros e He. f_equal.
  destruct (comprehension_defined _ _ _ _ Htf He) as [cf Hcf].
  assert (Hene : e <> []) by (intros ->; discriminate).
  apply bool_decide_ext. rewrite Hm, list_elem_of_In. simpl. split.
  - intros [Hempty|[_ Hin]]; [|exact Hin]. exfalso. revert Hempty.
    apply not_elem_of_empty.
  - intros Hin. right. split; assumption.
Qed.

(** The reconciliation of one club returns when every name of the two
    sides has a first token. *)
Lemma user_rows_total (slug : str) (tm_players tf sf names : list str)
    (st : pass_state) :
  (forall c, In c tm_players -> exists cf, extract_first_name c = Ok cf) ->
  (forall n, In n names -> exists pf, extract_first_name n = Ok pf) ->
  exists st', user_rows slug tm_players tf sf names st = Ok st'.
Proof.
  intros Htm. revert st. induction names as [|n names IH]; intros st Hnames; simpl.
  - eauto.
  - destruct (Hnames n (or_introl eq_refl)) as [pf Hpf].
    destruct (score_candidates_total n pf tf sf tm_players [] Htm) as [scores Hscores].
    unfold user_row. rewrite Hpf. simpl. rewrite Hscores. simpl.
    destruct (best_of scores) as [best score]. simpl.
    apply IH. intros; apply Hnames; right; assumption.
Qed.

Lemma club_pass_total (slug : str) (subset tm_players : list str)
    (results0 : list Row) :
  (forall c, In c tm_players -> exists cf, extract_first_name c = Ok cf) ->
  (forall n, In n subset -> exists pf, extract_first_name n = Ok pf) ->
  exists rows, club_pass slug subset tm_players results0 = Ok rows.
Proof.
  intros Htm Hsub. unfold club_pass.
  destruct (comprehension_total _ _ Htm) as [tf ->].
  destruct (comprehension_total _ _ Hsub) as [sf ->]. simpl.
  destruct (user_rows_total slug tm_players tf sf subset
              {| results := results0; matched_tm_names := ∅;
                 matched_sheet_names := ∅ |} Htm Hsub) as [st ->].
  simpl. eauto.
Qed.

End PassFacts.

(** *** Counting the rows of an external name *)

Lemma claims_app (e : str) (l1 l2 : list Row) :
  claims e (l1 ++ l2) = (claims e l1 + claims e l2)%nat.
Proof. unfold claims. rewrite List.filter_app, List.length_app. reflexivity. Qed.

Lemma news_app (e : str) (l1 l2 : list Row) :
  news e (l1 ++ l2) = (news e l1 + news e l2)%nat.
Proof. unfold news. rewrite List.filter_app, List.length_app. reflexivity. Qed.

Lemma count_In (l : list str) (e : str) : In e l -> (1 <= count l e)%nat.
Proof.
  induction l as [|x l IH]; simpl; [tauto|]. intros [->|Hin].
  - destruct (decide (e = e)); [lia | congruence].
  - destruct (decide (x = e)); [lia | auto].
Qed.

Lemma count_filter (P : str -> bool) (l : list str) (e : str) :
  count (List.filter P l) e = if P e then count l e else 0%nat.
Proof.
  induction l as [|x l IH]; simpl; [destruct (P e); reflexivity|].
  destruct (P x) eqn:HPx; simpl; rewrite IH.
  - destruct (decide (x = e)) as [->|Hne]; [rewrite HPx|]; reflexivity.
  - destruct (decide (x = e)) as [->|Hne]; [rewrite HPx|]; reflexivity.
Qed.

Section CountFacts.
Context `{Unicode} `{Fuzz}.

Lemma claims_new_rows (slug e : str) (l : list str) :
  claims e (List.map (new_player_row slug) l) = 0%nat.
Proof. unfold claims. induction l as [|x l IH]; simpl; auto. Qed.

Lemma news_new_rows (slug e : str) (l : list str) :
  news e (List.map (new_player_row slug) l) = count l e.
Proof.
  unfold news. induction l as [|x l IH]; simpl; [reflexivity|].
  unfold unclaimed_as at 1. simpl.
  destruct (decide (x = e)) as [->|Hne].
  - rewrite bool_decide_eq_true_2 by reflexivity. simpl. rewrite IH. reflexivity.
  - rewrite bool_decide_eq_false_2 by exact Hne. exact IH.
Qed.

Lemma news_outcomes (slug e : str) (outcomes : list Row) :
  Forall (fun r => club r = slug /\ is_outcome r = true) outcomes ->
  news e outcomes = 0%nat.
Proof.
  unfold news. induction 1 as [|r l [_ Hr] _ IH]; simpl; [reflexivity|].
  unfold unclaimed_as at 1. rewrite Hr. simpl. exact IH.
Qed.

Lemma claims_outcomes_In (slug e : str) (outcomes : list Row) :
  Forall (fun r => club r = slug /\ is_outcome r = true) outcomes ->
  (In e (List.map nom_tm outcomes) <-> (0 < claims e outcomes)%nat).
Proof.
  unfold claims. induction 1 as [|r l [_ Hr] _ IH]; simpl; [split; [tauto|lia]|].
  unfold claimed_by at 1 3. rewrite Hr. simpl.
  destruct (decide (nom_tm r = e)) as [He|Hne].
  - rewrite bool_decide_eq_true_2 by exact He. simpl. split; [lia | auto].
  - rewrite bool_decide_eq_false_2 by exact Hne. rewrite <- IH. tauto.
Qed.

Lemma claims_outcomes_picks (slug e : str) (tm_players tf sf subset : list str)
    (outcomes : list Row) :
  e <> [] ->
  Forall (fun r => club r = slug /\ is_outcome r = true) outcomes ->
  Forall2 (fun n r => forall e, e <> [] ->
             (nom_tm r = e <-> picks tm_players tf sf e n = true))
    subset outcomes ->
  claims e outcomes = length (List.filter (picks tm_players tf sf e) subset).
Proof.
  intros He Hall Hpicks. unfold claims.
  induction Hpicks as [|n r names outs Hnr _ IH]; simpl; [reflexivity|].
  inversion Hall as [|? ? [_ Hr] Hall']; subst.
  unfold claimed_by at 1. rewrite Hr. simpl.
  specialize (Hnr e He).
  destruct (picks tm_players tf sf e n) eqn:Hp.
  - rewrite bool_decide_eq_true_2 by (apply Hnr; reflexivity).
    simpl. rewrite IH by assumption. reflexivity.
  - rewrite bool_decide_eq_false_2; [auto|].
    intros Heq. apply Hnr in Heq. discriminate.
Qed.

(** C2 (amended): among the rows that the reconciliation of one club adds
    to the report, the number of rows of user names whose accepted match is
    the external name [e] is the number of user rows of the club whose own
    best candidate is [e] with a score of at least 65; each user row counts
    for at most one external name, so the number is at most the number of
    user rows of the club.  No claim of an earlier row excludes a later
    one. *)
Theorem claims_are_per_user_row (slug e : str) (subset tm_players : list str)
    (results0 rows : list Row) :
  club_pass slug subset tm_players results0 = Ok rows ->
  In e tm_players ->
  exists block tf sf,
    rows = results0 ++ block
    /\ comprehension extract_first_name tm_players = Ok tf
    /\ comprehension extract_first_name subset = Ok sf
    /\ claims e block = length (List.filter (picks tm_players tf sf e) subset)
    /\ (claims e block <= length subset)%nat.
Proof.
  intros Hpass Hin.
  assert (Hne : tm_players <> []) by (intros ->; destruct Hin).
  destruct (club_pass_rows _ _ _ _ _ Hne Hpass)
    as (tf & sf & outs & Htf & Hsf & -> & Hnames & Hall & Hpicks).
  destruct (comprehension_defined _ _ _ _ Htf Hin) as [cf Hcf].
  assert (Hene : e <> []) by (intros ->; discriminate).
  eexists _, tf, sf. split; [reflexivity|].
  split; [assumption|]. split; [assumption|].
  rewrite claims_app, claims_new_rows, Nat.add_0_r.
  rewrite (claims_outcomes_picks slug e tm_players tf sf subset outs Hene Hall Hpicks).
  split; [reflexivity|]. apply List.filter_length_le.
Qed.

(** C3 (amended): among the rows that the reconciliation of one club adds
    to the report, every name [e] of the provider list is reported at least
    once, and never both as an accepted match and as a new player; when no
    user row has it as accepted match it has one "new player" row per
    occurrence in the provider list. *)
Theorem external_names_are_reported (slug e : str) (subset tm_players : list str)
    (results0 rows : list Row) :
  club_pass slug subset tm_players results0 = Ok rows ->
  In e tm_players ->
  exists block,
    rows = results0 ++ block
    /\ (claims e block = 0%nat \/ news e block = 0%nat)
    /\ (1 <= claims e block + news e block)%nat
    /\ (claims e block = 0%nat -> news e block = count tm_players e).
Proof.
  intros Hpass Hin.
  assert (Hne : tm_players <> []) by (intros ->; destruct Hin).
  destruct (club_pass_rows _ _ _ _ _ Hne Hpass)
    as (tf & sf & outs & Htf & Hsf & -> & Hnames & Hall & Hpicks).
  eexists. split; [reflexivity|].
  rewrite claims_app, news_app, claims_new_rows, news_new_rows.
  rewrite (news_outcomes slug e outs Hall), count_filter, Nat.add_0_r.
  pose proof (claims_outcomes_In slug e outs Hall) as Hclaimed.
  pose proof (count_In tm_players e Hin) as Hcount.
  destruct (decide (e ∈ List.map nom_tm outs)) as [Hy|Hn].
  - rewrite bool_decide_eq_true_2 by exact Hy. simpl.
    apply list_elem_of_In, Hclaimed in Hy. lia.
  - rewrite bool_decide_eq_false_2 by exact Hn. simpl.
    rewrite list_elem_of_In, Hclaimed in Hn. lia.
Qed.

End CountFacts.

(** *** The report *)

Lemma enumerate_snd {A} (l : list A) (start : nat) :
  List.map snd (enumerate l start) = l.
Proof.
  revert start. induction l as [|a l IH]; intros start; simpl; [reflexivity|].
  rewrite IH. reflexivity.
Qed.

Lemma subset_of_known (slug : str) (df : list sheet_row) :
  In slug (List.map fst CLUB_SLUG_TO_ID) ->
  subset_of slug (dropna (List.filter (fun r => negb (unknown_club r)) df))
  = subset_of slug (dropna df).
Proof.
  intros Hslug. unfold subset_of. f_equal.
  induction df as [|[n s] df IH]; [reflexivity|].
  cbn [List.filter]. unfold unknown_club at 1. cbn [team_slug].
  destruct s as [s|]; [|destruct n; exact IH].
  destruct (decide (s ∈ List.map fst CLUB_SLUG_TO_ID)) as [Hk|Hu].
  - rewrite bool_decide_eq_true_2 by exact Hk.
    destruct n as [n|]; simpl; rewrite IH; reflexivity.
  - rewrite bool_decide_eq_false_2 by exact Hu.
    destruct n as [n|]; simpl; rewrite IH; [|reflexivity].
    rewrite bool_decide_eq_false_2; [reflexivity|].
    intros ->. apply Hu, list_elem_of_In, Hslug.
Qed.

Section ReportFacts.
Context `{Unicode} `{Fuzz}.

Lemma club_pass_block (slug : str) (subset tm_players : list str)
    (results0 rows : list Row) :
  tm_players <> [] ->
  club_pass slug subset tm_players results0 = Ok rows ->
  exists block, rows = results0 ++ block
                /\ club_block slug subset tm_players block.
Proof.
  intros Hne Hpass.
  destruct (club_pass_rows _ _ _ _ _ Hne Hpass)
    as (tf & sf & outs & _ & _ & -> & Hnames & Hall & _).
  eexists. split; [reflexivity|].
  exists outs. eexists. split; [reflexivity|].
  split; [assumption|]. split; [assumption|]. split.
  - apply List.Forall_forall. intros r Hr. apply in_map_iff in Hr as (e & <- & _).
    repeat split.
  - rewrite List.map_map. simpl. apply List.map_id.
Qed.

(** The loop over the catalog appends, club after club, what the layout
    of the report says. *)
Lemma clubs_loop_report (df : list (str * str)) (items : list (nat * (str * Z)))
    (results0 rows : list Row) (w w' : World) :
  clubs_loop df items results0 w = (w', Ok rows) ->
  exists rows', rows = results0 ++ rows'
                /\ report_of df (List.map snd items) w rows'.
Proof.
  revert results0 w. induction items as [|[i [slug club_id]] items IH];
    intros results0 w; simpl.
  - intros Hrun. injection Hrun as _ <-. exists [].
    rewrite app_nil_r. split; [reflexivity | constructor].
  - destruct (subset_of slug df) as [|n names] eqn:Hsub.
    + intros Hrun. destruct (IH _ _ Hrun) as (rows' & -> & Hrep).
      exists rows'. split; [reflexivity|]. apply report_absent; assumption.
    + assert (Hsubne : subset_of slug df <> []) by (rewrite Hsub; discriminate).
      destruct (fetch_or_load_players club_id slug w)
        as [w1 [[|p tm]|ex]] eqn:Hfetch.
      * intros Hrun. destruct (IH _ _ Hrun) as (rows' & -> & Hrep).
        exists rows'. split; [reflexivity|].
        eapply report_no_data; eassumption.
      * destruct (club_pass slug (n :: names) (p :: tm) results0)
          as [results1|ex] eqn:Hpass; [|discriminate].
        intros Hrun. destruct (IH _ _ Hrun) as (rows' & -> & Hrep).
        assert (Htm : p :: tm <> []) by discriminate.
        destruct (club_pass_block _ _ _ _ _ Htm Hpass) as (block & -> & Hblock).
        exists (block ++ rows'). split; [rewrite app_assoc; reflexivity|].
        eapply report_club; [assumption | exact Hfetch | discriminate
                            | rewrite Hsub; exact Hblock | | exact Hrep].
        unfold paused. destruct (decide (i = PAUSE_AFTER)); auto.
      * discriminate.
Qed.

(** The loop looks at the table only through the rows of the clubs it
    iterates over. *)
Lemma clubs_loop_ext (df df' : list (str * str)) (items : list (nat * (str * Z)))
    (results0 : list Row) (w : World) :
  (forall item, In item items ->
                subset_of (fst (snd item)) df = subset_of (fst (snd item)) df') ->
  clubs_loop df items results0 w = clubs_loop df' items results0 w.
Proof.
  revert results0 w. induction items as [|[i [slug club_id]] items IH];
    intros results0 w Hsame; simpl; [reflexivity|].
  pose proof (Hsame (i, (slug, club_id)) (or_introl eq_refl)) as Hslug.
  simpl in Hslug. rewrite <- Hslug.
  assert (Hrest : forall r w0, clubs_loop df items r w0 = clubs_loop df' items r w0).
  { intros r w0. apply IH. intros item Hitem. apply Hsame. right. exact Hitem. }
  destruct (subset_of slug df) as [|n names]; [apply Hrest|].
  destruct (fetch_or_load_players club_id slug w) as [w1 [[|p tm]|ex]];
    [apply Hrest | | reflexivity].
  destruct (club_pass slug (n :: names) (p :: tm) results0); [apply Hrest | reflexivity].
Qed.

Lemma club_block_clubs (slug : str) (subset tm_players : list str) (block : list Row) :
  club_block slug subset tm_players block -> Forall (fun r => club r = slug) block.
Proof.
  intros (outs & news & -> & _ & Houts & Hnews & _).
  apply Forall_app. split; (eapply Forall_impl; [eassumption|]); simpl; tauto.
Qed.

Lemma report_of_clubs (df : list (str * str)) (catalog : list (str * Z))
    (w : World) (rows : list Row) :
  report_of df catalog w rows ->
  Forall (fun r => In (club r) (List.map fst catalog)) rows.
Proof.
  induction 1 as [w | slug club_id catalog w rows _ _ IH
                 | slug club_id catalog w w1 rows _ _ _ IH
                 | slug club_id catalog w w1 w2 tm block rows _ _ _ Hblock _ _ IH].
  - constructor.
  - eapply Forall_impl; [exact IH|]. simpl. auto.
  - eapply Forall_impl; [exact IH|]. simpl. auto.
  - apply Forall_app. split.
    + eapply Forall_impl; [exact (club_block_clubs _ _ _ _ Hblock)|].
      simpl. auto.
    + eapply Forall_impl; [exact IH|]. simpl. auto.
Qed.

(** C7: the rows of a report are the blocks of the clubs in the order of
    the catalog [CLUB_SLUG_TO_ID], whatever the order of the table; the
    block of a club is one row per user row of that club, in the order of
    the table, followed by the rows of the unclaimed provider names, in
    the order of the provider list; a club without rows in the table or
    with an empty provider list has no block. *)
Theorem report_layout (df : list sheet_row) (w w' : World) (rows : list Row) :
  verifier_effectifs df w = (w', Ok rows) ->
  report_of (dropna df) CLUB_SLUG_TO_ID w rows.
Proof.
  unfold verifier_effectifs. intros Hrun.
  destruct (clubs_loop_report _ _ _ _ _ _ Hrun) as (rows' & -> & Hrep).
  rewrite enumerate_snd in Hrep. exact Hrep.
Qed.

Lemma clubs_loop_clubs (df : list (str * str)) (catalog : list (str * Z))
    (start : nat) (w : World) :
  Forall (fun r => In (club r) (List.map fst catalog))
    (report_rows (clubs_loop df (enumerate catalog start) [] w)).
Proof.
  unfold report_rows, rows_of.
  destruct (clubs_loop df (enumerate catalog start) [] w)
    as [w' [rows|ex]] eqn:Hrun; [|constructor].
  destruct (clubs_loop_report _ _ _ _ _ _ Hrun) as (rows' & -> & Hrep).
  rewrite enumerate_snd in Hrep. exact (report_of_clubs _ _ _ _ Hrep).
Qed.

Lemma clubs_loop_known (df : list sheet_row) (catalog : list (str * Z))
    (start : nat) (w : World) :
  (forall slug, In slug (List.map fst catalog) ->
     subset_of slug (dropna (List.filter (fun r => negb (unknown_club r)) df))
     = subset_of slug (dropna df)) ->
  clubs_loop (dropna (List.filter (fun r => negb (unknown_club r)) df))
    (enumerate catalog start) [] w
  = clubs_loop (dropna df) (enumerate catalog start) [] w.
Proof.
  intros Hknown. apply clubs_loop_ext.
  intros [i [slug club_id]] Hitem. apply Hknown.
  apply (in_map snd) in Hitem. rewrite enumerate_snd in Hitem.
  apply (in_map fst) in Hitem. exact Hitem.
Qed.

(** C10: the rows of the table whose club is no key of the catalog change
    nothing: the run on the table without them is the same run, with the
    same report or the same exception; and the club of every row of a
    report is a key of the catalog. *)
Theorem unknown_clubs_are_dropped (df : list sheet_row) (w : World) :
  verifier_effectifs (List.filter (fun r => negb (unknown_club r)) df) w
  = verifier_effectifs df w
  /\ Forall (fun r => In (club r) (List.map fst CLUB_SLUG_TO_ID))
       (report_rows (verifier_effectifs df w)).
Proof.
  split.
  - apply clubs_loop_known. intros slug. apply subset_of_known.
  - apply clubs_loop_clubs.
Qed.

End ReportFacts.

(** *** The provider client *)

(** C9: when the cache file of a club is fresh and [json.load] rejects its
    content, [fetch_or_load_players] reads it once and the exception leaves
    the function: no request is sent and nothing is returned. *)
Theorem corrupt_cache_raises (club_id : Z) (slug : str) (w : World) (f : file) :
  cache w !! club_id = Some f ->
  is_cache_fresh club_id w = true ->
  body f = Garbage ->
  fetch_or_load_players club_id slug w = (w, Raise JSONDecodeError).
Proof.
  intros Hfile Hfresh Hbody. unfold fetch_or_load_players.
  rewrite Hfresh, Hfile. destruct f as [t b]. simpl in Hbody. rewrite Hbody.
  reflexivity.
Qed.

(** A fresh cache file that holds names is returned as it is, without a
    request. *)
Lemma fresh_cache_is_used (club_id : Z) (slug : str) (w : World) (f : file)
    (names : list str) :
  cache w !! club_id = Some f ->
  is_cache_fresh club_id w = true ->
  body f = Json names ->
  fetch_or_load_players club_id slug w = (w, Ok names).
Proof.
  intros Hfile Hfresh Hbody. unfold fetch_or_load_players.
  rewrite Hfresh, Hfile. destruct f as [t b]. simpl in Hbody. rewrite Hbody.
  reflexivity.
Qed.

(** *** The similarity metric *)

Module MetricFacts.
Import Metric.

Lemma lcs_nil_r (a : str) : lcs a [] = 0%nat.
Proof. destruct a; reflexivity. Qed.

Lemma lcs_cons (x y : N) (a b : str) :
  lcs (x :: a) (y :: b) =
    if decide (x = y) then S (lcs a b)
    else Nat.max (lcs a (y :: b)) (lcs (x :: a) b).
Proof. reflexivity. Qed.

Lemma lcs_sym (a b : str) : lcs a b = lcs b a.
Proof.
  revert b. induction a as [|x a IHa]; intros b.
  - rewrite lcs_nil_r. reflexivity.
  - induction b as [|y b IHb]; [reflexivity|].
    rewrite !lcs_cons, IHb, (IHa b), (IHa (y :: b)).
    destruct (decide (x = y)) as [->|Hne].
    + destruct (decide (y = y)); [reflexivity | congruence].
    + destruct (decide (y = x)); [congruence | apply Nat.max_comm].
Qed.

Lemma lcs_diag (a : str) : lcs a a = length a.
Proof.
  induction a as [|x a IH]; [reflexivity|].
  rewrite lcs_cons. destruct (decide (x = x)); [|congruence].
  simpl. rewrite IH. reflexivity.
Qed.

Lemma lcs_le_l (a b : str) : (lcs a b <= length a)%nat.
Proof.
  revert b. induction a as [|x a IHa]; intros b; [reflexivity|].
  induction b as [|y b IHb]; [simpl; lia|].
  rewrite lcs_cons. destruct (decide (x = y)).
  - specialize (IHa b). simpl. lia.
  - specialize (IHa (y :: b)). simpl in *. lia.
Qed.

Lemma ratio_sym (a b : str) : ratio a b = ratio b a.
Proof.
  unfold ratio. rewrite (lcs_sym a b), (Nat.add_comm (length a)). reflexivity.
Qed.

Lemma ratio_diag (a : str) : ratio a a = 100%Q.
Proof.
  unfold ratio. rewrite lcs_diag.
  destruct (length a + length a)%nat as [|m] eqn:Hn; [reflexivity|].
  change 100%Q with (Qred 100). apply Qred_complete.
  unfold Qeq. cbn [Qnum Qden]. rewrite <- Hn.
  rewrite <- (positive_nat_Z (Pos.of_nat (length a + length a))).
  rewrite Nat2Pos.id by lia. lia.
Qed.

(** The score is a percentage. *)
Lemma ratio_range (a b : str) : (0 <= ratio a b)%Q /\ (ratio a b <= 100)%Q.
Proof.
  unfold ratio.
  destruct (length a + length b)%nat as [|m] eqn:Hn; [split; discriminate|].
  rewrite Qred_correct, <- Hn. unfold Qle. cbn [Qnum Qden].
  pose proof (lcs_le_l a b) as Ha. pose proof (lcs_le_l b a) as Hb.
  rewrite (lcs_sym b a) in Hb.
  rewrite <- (positive_nat_Z (Pos.of_nat (length a + length b))).
  rewrite Nat2Pos.id by lia. lia.
Qed.

(** The order of the tokens is a total order ... *)
Lemma str_leb_total (a b : str) : str_leb a b = true \/ str_leb b a = true.
Proof.
  revert b. induction a as [|x a IH]; intros [|y b]; simpl; auto.
  destruct (N.ltb_spec x y), (N.ltb_spec y x); auto; lia.
Qed.

Lemma str_leb_antisym (a b : str) :
  str_leb a b = true -> str_leb b a = true -> a = b.
Proof.
  revert b. induction a as [|x a IH]; intros [|y b]; simpl;
    try reflexivity; try discriminate.
  destruct (N.ltb_spec x y), (N.ltb_spec y x); try discriminate; try lia.
  intros Hab Hba. assert (x = y) as -> by lia. f_equal. auto.
Qed.

Lemma str_leb_trans (a b c : str) :
  str_leb a b = true -> str_leb b c = true -> str_leb a c = true.
Proof.
  revert b c. induction a as [|x a IH]; intros [|y b] [|z c]; simpl;
    try reflexivity; try discriminate.
  destruct (N.ltb_spec x y), (N.ltb_spec y x), (N.ltb_spec y z), (N.ltb_spec z y),
    (N.ltb_spec x z), (N.ltb_spec z x);
    try reflexivity; try discriminate; try lia.
  apply IH.
Qed.

(** ... so [sorted] computes the one sorted arrangement of the tokens. *)
Lemma insert_token_perm (t : str) (l : list str) :
  Permutation (t :: l) (insert_token t l).
Proof.
  induction l as [|u l IH]; simpl; [reflexivity|].
  destruct (str_leb t u); [reflexivity|].
  rewrite perm_swap. constructor. exact IH.
Qed.

Lemma sorted_perm (l : list str) : Permutation l (sorted l).
Proof.
  induction l as [|t l IH]; simpl; [reflexivity|].
  rewrite <- insert_token_perm. constructor. exact IH.
Qed.

Lemma insert_token_sorted (t : str) (l : list str) :
  StronglySorted (fun a b => str_leb a b = true) l ->
  StronglySorted (fun a b => str_leb a b = true) (insert_token t l).
Proof.
  induction 1 as [|u l Hsorted IH Hu]; simpl.
  - repeat constructor.
  - destruct (str_leb t u) eqn:Htu.
    + constructor; [constructor; assumption|].
      constructor; [exact Htu|].
      eapply Forall_impl; [exact Hu|]. simpl. intros v Hv.
      eapply str_leb_trans; eassumption.
    + constructor; [exact IH|].
      rewrite <- insert_token_perm. constructor; [|exact Hu].
      destruct (str_leb_total t u); congruence.
Qed.

Lemma sorted_sorted (l : list str) :
  StronglySorted (fun a b => str_leb a b = true) (sorted l).
Proof.
  induction l as [|t l IH]; simpl; [constructor|].
  apply insert_token_sorted, IH.
Qed.

Lemma sorted_unique (l1 l2 : list str) :
  StronglySorted (fun a b => str_leb a b = true) l1 ->
  StronglySorted (fun a b => str_leb a b = true) l2 ->
  Permutation l1 l2 -> l1 = l2.
Proof.
  intros Hs1. revert l2. induction Hs1 as [|x l1 Hs1 IH Hx]; intros l2 Hs2 Hperm.
  - apply Permutation_nil in Hperm. congruence.
  - destruct Hs2 as [|y l2 Hs2 Hy].
    + symmetry in Hperm. apply Permutation_nil in Hperm. discriminate.
    + assert (Hxy : x = y).
      { assert (Hin1 : In x (y :: l2))
          by (eapply Permutation_in; [exact Hperm | left; reflexivity]).
        assert (Hin2 : In y (x :: l1))
          by (eapply Permutation_in; [symmetry; exact Hperm | left; reflexivity]).
        rewrite List.Forall_forall in Hx, Hy.
        destruct Hin1 as [->|Hin1]; [reflexivity|].
        destruct Hin2 as [->|Hin2]; [reflexivity|].
        apply str_leb_antisym; auto. }
      subst y. f_equal. apply IH; [exact Hs2|].
      eapply Permutation_cons_inv; exact Hperm.
Qed.

Lemma sorted_permutation (l1 l2 : list str) :
  Permutation l1 l2 -> sorted l1 = sorted l2.
Proof.
  intros Hperm. apply sorted_unique; try apply sorted_sorted.
  rewrite <- !sorted_perm. exact Hperm.
Qed.

(** The score does not depend on the order of the tokens. *)
Lemma token_order_insensitive (s1 s1' s2 : str) :
  Permutation (split s1) (split s1') ->
  token_sort_ratio s1 s2 = token_sort_ratio s1' s2.
Proof.
  intros Hperm. unfold token_sort_ratio.
  rewrite (sorted_permutation _ _ Hperm). reflexivity.
Qed.

End MetricFacts.

(** C8: the similarity metric is symmetric, and every diacritic-stripped
    name has similarity 100 with itself. *)
Theorem metric_symmetric_and_reflexive `{Unicode} (x y : str) :
  Metric.token_sort_ratio x y = Metric.token_sort_ratio y x
  /\ Metric.token_sort_ratio (remove_accents x) (remove_accents x) = 100%Q.
Proof.
  unfold Metric.token_sort_ratio. split.
  - apply MetricFacts.ratio_sym.
  - apply MetricFacts.ratio_diag.
Qed.

(** *** Tokens and white space *)

Lemma split_from_lstrip (s : str) : split_from [] (lstrip s) = split_from [] s.
Proof.
  induction s as [|c s IH]; simpl; [reflexivity|].
  destruct (isspace c) eqn:Hc; [exact IH|]. simpl. rewrite Hc. reflexivity.
Qed.

Lemma split_from_blank_tail (tok ws : str) :
  forallb isspace ws = true -> split_from tok ws = split_from tok [].
Proof.
  revert tok. induction ws as [|c ws IH]; intros tok Hws; [reflexivity|].
  simpl in Hws. apply andb_prop in Hws as [Hc Hws]. simpl. rewrite Hc.
  rewrite (IH [] Hws). destruct tok; reflexivity.
Qed.

Lemma split_from_app_blank (tok s ws : str) :
  forallb isspace ws = true -> split_from tok (s ++ ws) = split_from tok s.
Proof.
  intros Hws. revert tok. induction s as [|c s IH]; intros tok; simpl.
  - apply split_from_blank_tail, Hws.
  - destruct (isspace c); [|apply IH].
    destruct tok; rewrite IH; reflexivity.
Qed.

Lemma split_from_blank_app (ws s : str) :
  forallb isspace ws = true -> split_from [] (ws ++ s) = split_from [] s.
Proof.
  induction ws as [|c ws IH]; intros Hws; [reflexivity|].
  simpl in Hws. apply andb_prop in Hws as [Hc Hws]. simpl. rewrite Hc. auto.
Qed.

Lemma lstrip_decompose (s : str) :
  exists ws, forallb isspace ws = true /\ s = ws ++ lstrip s.
Proof.
  induction s as [|c s (ws & Hws & Hs)]; [exists []; split; reflexivity|].
  simpl. destruct (isspace c) eqn:Hc.
  - exists (c :: ws). simpl. rewrite Hc, Hws. split; [reflexivity | congruence].
  - exists []. split; reflexivity.
Qed.

Lemma forallb_rev (f : N -> bool) (l : str) :
  forallb f l = true -> forallb f (rev l) = true.
Proof.
  rewrite !forallb_forall. intros Hall x Hx. apply Hall, in_rev, Hx.
Qed.

(** The [strip()] of line 49 cuts nothing that [split()] would not cut. *)
Lemma split_strip (s : str) : split (strip s) = split s.
Proof.
  unfold split, strip.
  destruct (lstrip_decompose (rev (lstrip s))) as (ws & Hws & Hrev).
  assert (Hs : lstrip s = rev (lstrip (rev (lstrip s))) ++ rev ws).
  { rewrite <- rev_app_distr, <- Hrev, rev_involutive. reflexivity. }
  rewrite <- (split_from_lstrip s).
  transitivity (split_from [] (rev (lstrip (rev (lstrip s))) ++ rev ws)).
  - symmetry. apply split_from_app_blank, forallb_rev, Hws.
  - f_equal. symmetry. exact Hs.
Qed.

(** A run of code points without white space, followed by white space, is
    the first token. *)
Lemma split_from_token_run (acc tok rest : str) (c : N) :
  forallb (fun x => negb (isspace x)) tok = true ->
  isspace c = true ->
  tok ++ acc <> [] ->
  split_from acc (tok ++ c :: rest) = rev (rev tok ++ acc) :: split_from [] rest.
Proof.
  revert acc. induction tok as [|x tok IH]; intros acc Htok Hc Hne; simpl.
  - rewrite Hc. destruct acc; [contradiction | reflexivity].
  - simpl in Htok. apply andb_prop in Htok as [Hx Htok].
    apply negb_true_iff in Hx. rewrite Hx.
    rewrite IH; [|assumption|assumption|].
    + rewrite <- app_assoc. reflexivity.
    + destruct tok; discriminate.
Qed.

Lemma split_from_last_token (acc tok : str) :
  forallb (fun x => negb (isspace x)) tok = true ->
  tok ++ acc <> [] ->
  split_from acc tok = [rev (rev tok ++ acc)].
Proof.
  revert acc. induction tok as [|x tok IH]; intros acc Htok Hne; simpl.
  - destruct acc; [contradiction | reflexivity].
  - simpl in Htok. apply andb_prop in Htok as [Hx Htok].
    apply negb_true_iff in Hx. rewrite Hx.
    rewrite IH; [|assumption|].
    + rewrite <- app_assoc. reflexivity.
    + destruct tok; discriminate.
Qed.

Section TokenFacts.
Context `{Unicode}.

(** X1: white space around a name does not change its first token: with
    any white space before and after, [extract_first_name] gives the same
    result, the same exception included. *)
Theorem extract_first_name_ignores_padding (before s after : str) :
  forallb isspace before = true ->
  forallb isspace after = true ->
  extract_first_name (before ++ s ++ after) = extract_first_name s.
Proof.
  intros Hb Ha. unfold extract_first_name. rewrite !split_strip. unfold split.
  rewrite split_from_blank_app by exact Hb.
  rewrite split_from_app_blank by exact Ha. reflexivity.
Qed.

(** X2: only the first token of a name counts: when a name starts with a
    non-empty run of code points that are no white space and the run ends
    at a white-space code point, the result is the one of the run alone,
    whatever follows. *)
Theorem extract_first_name_first_token (tok rest : str) (c : N) :
  tok <> [] ->
  forallb (fun x => negb (isspace x)) tok = true ->
  isspace c = true ->
  extract_first_name (tok ++ c :: rest) = Ok (lower (remove_accents tok))
  /\ extract_first_name tok = Ok (lower (remove_accents tok)).
Proof.
  intros Hne Htok Hc. unfold extract_first_name. rewrite !split_strip. unfold split.
  assert (Hne' : tok ++ [] <> []) by (rewrite app_nil_r; exact Hne).
  rewrite (split_from_token_run [] tok rest c Htok Hc Hne').
  rewrite (split_from_last_token [] tok Htok Hne').
  rewrite app_nil_r, rev_involutive. split; reflexivity.
Qed.

End TokenFacts.


(** *** The provider client: requests, cache file and clock *)

Lemma pending_cons (club_id : Z) (w : World) (r : response) (rs : list response) :
  pending club_id w = r :: rs -> network w !! club_id = Some (r :: rs).
Proof.
  unfold pending. destruct (network w !! club_id) as [l|]; simpl; congruence.
Qed.

(** One request: the first pending answer of the club, or a connection
    error when none is left; nothing else changes. *)
Lemma requests_get_spec (club_id : Z) (w : World) :
  exists w1 r,
    requests_get club_id w = (w1, r)
    /\ r = List.hd ConnectionError (pending club_id w)
    /\ pending club_id w1 = List.tl (pending club_id w)
    /\ clock w1 = clock w /\ cache w1 = cache w
    /\ (forall j, j <> club_id -> network w1 !! j = network w !! j).
Proof.
  unfold requests_get, pending.
  destruct (network w !! club_id) as [[|r rs]|] eqn:Hnet; simpl.
  - exists w, ConnectionError. rewrite Hnet. repeat split.
  - eexists _, r. split; [reflexivity|]. simpl.
    rewrite lookup_insert_eq. repeat split.
    intros j Hj. rewrite lookup_insert_ne by congruence. reflexivity.
  - exists w, ConnectionError. rewrite Hnet. repeat split.
Qed.

Lemma attempt_sleep_nonneg (attempt : nat) :
  (0 <= 1.5 + inject_Z (Z.of_nat attempt))%Q.
Proof.
  assert (0 <= inject_Z (Z.of_nat attempt))%Q by (unfold Qle; simpl; lia). lra.
Qed.

(** An answer that is not usable sends the loop to its next attempt, after
    the pause of line 74. *)
Lemma fetch_attempts_next (club_id : Z) (attempt : nat) (rest : list nat)
    (w w1 : World) (r : response) :
  requests_get club_id w = (w1, r) ->
  usable r = false ->
  fetch_attempts club_id (attempt :: rest) w
  = fetch_attempts club_id rest (sleep (1.5 + inject_Z (Z.of_nat attempt)) w1).
Proof.
  intros Hget Hr. simpl. rewrite Hget.
  destruct r as [|code [data|]]; try reflexivity.
  simpl in Hr. rewrite Hr. reflexivity.
Qed.

Lemma fetch_attempts_done (club_id : Z) (attempt : nat) (rest : list nat)
    (w w1 : World) (code : Z) (data : list str) :
  requests_get club_id w = (w1, Response code (Some data)) ->
  usable (Response code (Some data)) = true ->
  fetch_attempts club_id (attempt :: rest) w = (write_cache club_id data w1, Ok data).
Proof. intros Hget Hr. simpl in *. rewrite Hget, Hr. reflexivity. Qed.

(** What the retry loop can do to the world, whatever the provider answers:
    it returns a list, sends at most one request per attempt, lets time pass,
    and either leaves the cache as it is and returns the empty list, or
    writes the returned list to the file of the club, dated now. *)
Lemma fetch_attempts_inv (club_id : Z) (attempts : list nat) (w : World) :
  exists w' data k,
    fetch_attempts club_id attempts w = (w', Ok data)
    /\ (k <= length attempts)%nat
    /\ pending club_id w' = drop k (pending club_id w)
    /\ (clock w <= clock w')%Q
    /\ (forall j, j <> club_id ->
          cache w' !! j = cache w !! j /\ network w' !! j = network w !! j)
    /\ ((data = [] /\ cache w' = cache w)
        \/ cache w' = <[club_id := {| mtime := clock w'; body := Json data |}]> (cache w)).
Proof.
  revert w. induction attempts as [|attempt rest IH]; intros w.
  - exists w, [], 0%nat. simpl. repeat split; auto. apply Qle_refl.
  - destruct (requests_get_spec club_id w)
      as (w1 & r & Hget & Hr & Hpend & Hclock & Hcache & Hnet).
    destruct (usable r) eqn:Husable.
    + destruct r as [|code [data|]]; try discriminate.
      rewrite (fetch_attempts_done _ _ _ _ _ _ _ Hget Husable).
      exists (write_cache club_id data w1), data, 1%nat. simpl.
      split; [reflexivity|]. split; [lia|].
      split; [unfold pending in *; simpl; rewrite Hpend;
              destruct (default [] (network w !! club_id)); reflexivity|].
      split; [rewrite Hclock; apply Qle_refl|].
      split; [|right; rewrite Hcache; reflexivity].
      intros j Hj. rewrite lookup_insert_ne by congruence.
      rewrite Hcache. auto.
    + rewrite (fetch_attempts_next _ _ _ _ _ _ Hget Husable).
      destruct (IH (sleep (1.5 + inject_Z (Z.of_nat attempt)) w1))
        as (w' & data & k & Hrun & Hk & Hpend' & Hclock' & Hframe & Hcache').
      exists w', data, (S k). split; [exact Hrun|]. split; [simpl; lia|].
      split; [|split; [|split]].
      * rewrite Hpend'. unfold pending in *. simpl. rewrite Hpend.
        destruct (default [] (network w !! club_id)); [apply drop_nil | reflexivity].
      * simpl in Hclock'. rewrite Hclock in Hclock'.
        pose proof (attempt_sleep_nonneg attempt). lra.
      * intros j Hj. destruct (Hframe j Hj) as [Hc Hn]. simpl in Hc, Hn.
        rewrite Hc, Hn, Hcache, (Hnet j Hj). auto.
      * simpl in Hcache'. rewrite Hcache in Hcache'. exact Hcache'.
Qed.

(** X3: a call of [fetch_or_load_players] concerns one club only: the
    cache files and the pending answers of every other club id are as
    before, and the clock never runs backwards. *)
Theorem fetch_touches_one_club (club_id : Z) (slug : str) (w : World) :
  (clock w <= clock (fst (fetch_or_load_players club_id slug w)))%Q
  /\ forall j, j <> club_id ->
       cache (fst (fetch_or_load_players club_id slug w)) !! j = cache w !! j
       /\ network (fst (fetch_or_load_players club_id slug w)) !! j = network w !! j.
Proof.
  unfold fetch_or_load_players. destruct (is_cache_fresh club_id w).
  - destruct (cache w !! club_id) as [[t [names|]]|]; simpl;
      (split; [apply Qle_refl | auto]).
  - destruct (fetch_attempts_inv club_id (seq 0 MAX_RETRIES) w)
      as (w' & data & k & -> & _ & _ & Hclock & Hframe & _).
    simpl. auto.
Qed.

(** X4: a call of [fetch_or_load_players] sends at most [MAX_RETRIES]
    requests, all for its own club: the answers still pending for the club
    afterwards are the pending ones without their first [k], for some [k]
    of at most three. *)
Theorem fetch_sends_at_most_three_requests (club_id : Z) (slug : str) (w : World) :
  exists k, (k <= MAX_RETRIES)%nat
            /\ pending club_id (fst (fetch_or_load_players club_id slug w))
               = drop k (pending club_id w).
Proof.
  unfold fetch_or_load_players. destruct (is_cache_fresh club_id w).
  - exists 0%nat. split; [unfold MAX_RETRIES; lia|].
    destruct (cache w !! club_id) as [[t [names|]]|]; reflexivity.
  - destruct (fetch_attempts_inv club_id (seq 0 MAX_RETRIES) w)
      as (w' & data & k & -> & Hk & Hpend & _).
    exists k. rewrite length_seq in Hk. auto.
Qed.

(** X5: the one exception that leaves [fetch_or_load_players] is the
    [JSONDecodeError] of a fresh cache file that is no JSON; whatever the
    provider answers (connection errors, other status codes, bodies that
    cannot be read), the live fetch returns a list. *)
Theorem fetch_raises_only_on_corrupt_cache (club_id : Z) (slug : str) (w : World) :
  (exists e, snd (fetch_or_load_players club_id slug w) = Raise e)
  <-> (is_cache_fresh club_id w = true
       /\ exists f, cache w !! club_id = Some f /\ body f = Garbage).
Proof.
  unfold fetch_or_load_players. destruct (is_cache_fresh club_id w) eqn:Hfresh.
  - unfold is_cache_fresh in Hfresh.
    destruct (cache w !! club_id) as [[t [names|]]|]; simpl; [| |discriminate].
    + split; [intros [e He]; discriminate|].
      intros [_ (f & Hf & Hbody)]. injection Hf as <-. discriminate.
    + split; [|eauto]. intros _. split; [reflexivity|]. eexists. split; reflexivity.
  - destruct (fetch_attempts_inv club_id (seq 0 MAX_RETRIES) w)
      as (w' & data & k & -> & _). simpl.
    split; [intros [e He]; discriminate | intros [? _]; discriminate].
Qed.


Lemma hd_take_usable (rs : list response) (n : nat) :
  Forall (fun r => usable r = false) (take (S n) rs) ->
  usable (List.hd ConnectionError rs) = false
  /\ Forall (fun r => usable r = false) (take n (List.tl rs)).
Proof.
  destruct rs as [|r rs]; simpl.
  - intros _. split; [reflexivity|]. rewrite take_nil. constructor.
  - intros Hall. inversion Hall; subst. auto.
Qed.

(** The loop on answers that are all unusable: every attempt is used, the
    pauses add up, the cache is not written. *)
Lemma fetch_attempts_exhausted (club_id : Z) (attempts : list nat) (w : World) :
  Forall (fun r => usable r = false) (take (length attempts) (pending club_id w)) ->
  exists w',
    fetch_attempts club_id attempts w = (w', Ok [])
    /\ cache w' = cache w
    /\ (clock w' == clock w + total_sleep attempts)%Q
    /\ pending club_id w' = drop (length attempts) (pending club_id w).
Proof.
  revert w. induction attempts as [|attempt rest IH]; intros w Hall.
  - exists w. simpl. repeat split. lra.
  - destruct (requests_get_spec club_id w)
      as (w1 & r & Hget & Hr & Hpend & Hclock & Hcache & Hnet).
    simpl length in Hall. apply hd_take_usable in Hall as [Hhd Htl].
    rewrite <- Hr in Hhd.
    rewrite (fetch_attempts_next _ _ _ _ _ _ Hget Hhd).
    destruct (IH (sleep (1.5 + inject_Z (Z.of_nat attempt)) w1))
      as (w' & Hrun & Hcache' & Hclock' & Hpend').
    { unfold pending in *. simpl. rewrite Hpend. exact Htl. }
    exists w'. split; [exact Hrun|]. split; [|split].
    + rewrite Hcache'. simpl. exact Hcache.
    + rewrite Hclock'. simpl. rewrite Hclock. lra.
    + rewrite Hpend'. unfold pending in *. simpl. rewrite Hpend.
      destruct (default [] (network w !! club_id)); [apply drop_nil | reflexivity].
Qed.


Lemma stale_cache_fetches (club_id : Z) (slug : str) (w : World) :
  is_cache_fresh club_id w = false ->
  fetch_or_load_players club_id slug w
  = fetch_attempts club_id (seq 0 MAX_RETRIES) w.
Proof. intros Hstale. unfold fetch_or_load_players. rewrite Hstale. reflexivity. Qed.

(** X6: without a fresh cache file, when none of the first three pending
    answers of the provider is usable, [fetch_or_load_players] returns the
    empty list after three requests and pauses of 1.5, 2.5 and 3.5 seconds,
    and writes no cache file. *)
Theorem fetch_gives_up_after_three_failures (club_id : Z) (slug : str) (w : World) :
  is_cache_fresh club_id w = false ->
  Forall (fun r => usable r = false) (take MAX_RETRIES (pending club_id w)) ->
  exists w',
    fetch_or_load_players club_id slug w = (w', Ok [])
    /\ cache w' = cache w
    /\ (clock w' == clock w + 7.5)%Q
    /\ pending club_id w' = drop MAX_RETRIES (pending club_id w).
Proof.
  intros Hstale Hall. rewrite (stale_cache_fetches _ _ _ Hstale).
  destruct (fetch_attempts_exhausted club_id (seq 0 MAX_RETRIES) w)
    as (w' & Hrun & Hcache & Hclock & Hpend); [rewrite length_seq; exact Hall|].
  exists w'. rewrite length_seq in Hpend. repeat split; try assumption.
  rewrite Hclock.
  assert (Hsum : (total_sleep (seq 0 MAX_RETRIES) == 7.5)%Q) by reflexivity.
  rewrite Hsum. reflexivity.
Qed.


(** A cache file is fresh for less than 24 hours after its date. *)
Lemma fresh_within_a_day (club_id : Z) (w : World) (f : file) :
  cache w !! club_id = Some f ->
  (clock w - mtime f < 86400)%Q ->
  is_cache_fresh club_id w = true.
Proof.
  intros Hfile Hage. unfold is_cache_fresh. rewrite Hfile.
  destruct (Qlt_le_dec _ _) as [Hlt|Hle]; [reflexivity|]. exfalso.
  unfold MAX_CACHE_AGE_HOURS, Qdiv in Hle.
  change (/ 3600)%Q with (1 # 3600)%Q in Hle. lra.
Qed.

Lemma stale_after_a_day (club_id : Z) (w : World) (f : file) :
  cache w !! club_id = Some f ->
  (86400 <= clock w - mtime f)%Q ->
  is_cache_fresh club_id w = false.
Proof.
  intros Hfile Hage. unfold is_cache_fresh. rewrite Hfile.
  destruct (Qlt_le_dec _ _) as [Hlt|Hle]; [|reflexivity]. exfalso.
  unfold MAX_CACHE_AGE_HOURS, Qdiv in Hlt.
  change (/ 3600)%Q with (1 # 3600)%Q in Hlt. lra.
Qed.

(** X8: a roster that a live fetch returned is served from the cache for
    the next 24 hours: when [fetch_or_load_players], without a fresh cache
    file, returns a non-empty list, a second call for the same club less
    than 86400 seconds later returns the same list, sends no request and
    changes nothing. *)
Theorem fetched_roster_is_cached (club_id : Z) (slug slug' : str) (w w1 : World)
    (data : list str) (t : Q) :
  is_cache_fresh club_id w = false ->
  fetch_or_load_players club_id slug w = (w1, Ok data) ->
  data <> [] ->
  (0 <= t)%Q -> (t < 86400)%Q ->
  fetch_or_load_players club_id slug' (sleep t w1) = (sleep t w1, Ok data).
Proof.
  intros Hstale Hrun Hdata Ht0 Ht.
  rewrite (stale_cache_fetches _ _ _ Hstale) in Hrun.
  destruct (fetch_attempts_inv club_id (seq 0 MAX_RETRIES) w)
    as (w' & data' & k & Hrun' & _ & _ & _ & _ & Hcache).
  rewrite Hrun in Hrun'. injection Hrun' as <- <-.
  destruct Hcache as [[-> _]|Hcache]; [contradiction|].
  apply (fresh_cache_is_used club_id slug' (sleep t w1)
           {| mtime := clock w1; body := Json data |}).
  - simpl. rewrite Hcache. apply lookup_insert_eq.
  - apply (fresh_within_a_day club_id (sleep t w1)
             {| mtime := clock w1; body := Json data |}).
    + simpl. rewrite Hcache. apply lookup_insert_eq.
    + simpl. lra.
  - reflexivity.
Qed.

(** X9: a cache file that is 24 hours old or older is not read, whatever
    it holds: the call does not raise, and what it returns is either the
    empty list of a fetch that gave up, the file being left as it is, or a
    list fetched now, which replaces the file. *)
Theorem old_cache_is_not_read (club_id : Z) (slug : str) (w : World) (f : file) :
  cache w !! club_id = Some f ->
  (86400 <= clock w - mtime f)%Q ->
  exists w' data,
    fetch_or_load_players club_id slug w = (w', Ok data)
    /\ ((data = [] /\ cache w' = cache w)
        \/ cache w' = <[club_id := {| mtime := clock w'; body := Json data |}]> (cache w)).
Proof.
  intros Hfile Hage.
  rewrite (stale_cache_fetches _ _ _ (stale_after_a_day _ _ _ Hfile Hage)).
  destruct (fetch_attempts_inv club_id (seq 0 MAX_RETRIES) w)
    as (w' & data & k & Hrun & _ & _ & _ & _ & Hcache). eauto.
Qed.


(** *** The boost *)

Lemma count_comprehension {A} (f : A -> result (list N)) (l : list A)
    (bs : list str) (x : str) :
  comprehension f l = Ok bs ->
  length (List.filter (fun a => match f a with
                                | Ok b => bool_decide (b = x)
                                | Raise _ => false
                                end) l)
  = count bs x.
Proof.
  intros Hc. apply comprehension_Forall2 in Hc.
  induction Hc as [|a b l bs Hab _ IH]; simpl; [reflexivity|].
  rewrite Hab. destruct (decide (b = x)) as [Hbx|Hbx].
  - rewrite bool_decide_eq_true_2 by exact Hbx. simpl. rewrite IH. reflexivity.
  - rewrite bool_decide_eq_false_2 by exact Hbx. exact IH.
Qed.

Lemma filter_length_le_filter {A} (p q : A -> bool) (l : list A) :
  (forall a, p a = true -> q a = true) ->
  (length (List.filter p l) <= length (List.filter q l))%nat.
Proof.
  intros Hpq. induction l as [|a l IH]; simpl; [lia|].
  destruct (p a) eqn:Hp.
  - rewrite (Hpq a Hp). simpl. lia.
  - destruct (q a); simpl; lia.
Qed.

Section BoostFacts.
Context `{Unicode} `{Fuzz}.

(** [boosted_pair] is the test that decides between the two scores. *)
Lemma candidate_score_boosted_pair (name pf candidate : str) (tf sf : list str) (s : Q) :
  extract_first_name name = Ok pf ->
  candidate_score name pf tf sf candidate = Ok s ->
  s = if boosted_pair tf sf name candidate
      then Qmin (token_sort_ratio (remove_accents name) (remove_accents candidate) + 25) 100
      else token_sort_ratio (remove_accents name) (remove_accents candidate).
Proof.
  intros Hpf. unfold candidate_score, boosted_pair. rewrite Hpf.
  destruct (extract_first_name candidate) as [cf|ex]; simpl; [|discriminate].
  intros Hs. injection Hs as <-.
  destruct (decide (cf = pf)) as [Heq|Hne].
  - destruct (decide (count tf pf = 1%nat /\ count sf pf = 1%nat)) as [Hu|Hnu].
    + rewrite bool_decide_eq_true_2 by tauto. reflexivity.
    + rewrite bool_decide_eq_false_2 by tauto. reflexivity.
  - rewrite bool_decide_eq_false_2 by tauto. reflexivity.
Qed.


(** X11: the boost pairs user names and candidates one to one: in the batch
    of one club a user name passes the test of lines 108-109 with at most
    one candidate of the provider list, and a candidate with at most one
    user name of the table. *)
Theorem boost_is_one_to_one (subset tm_players tf sf : list str) :
  comprehension extract_first_name tm_players = Ok tf ->
  comprehension extract_first_name subset = Ok sf ->
  (forall name,
     (length (List.filter (boosted_pair tf sf name) tm_players) <= 1)%nat)
  /\ (forall candidate,
        (length (List.filter (fun name => boosted_pair tf sf name candidate) subset)
         <= 1)%nat).
Proof.
  intros Htf Hsf. split.
  - intros name. unfold boosted_pair.
    destruct (extract_first_name name) as [pf|ex];
      [|clear Htf; induction tm_players; simpl; [lia | assumption]].
    destruct (decide (count tf pf = 1%nat)) as [Hone|Hmany].
    + apply Nat.le_trans with (count tf pf); [|lia].
      rewrite <- (count_comprehension _ _ _ pf Htf).
      apply filter_length_le_filter. intros c.
      destruct (extract_first_name c) as [cf|]; [|discriminate].
      rewrite !bool_decide_eq_true. tauto.
    + assert (Hnone : forall c, In c tm_players ->
                match extract_first_name c with
                | Ok cf => bool_decide (cf = pf /\ count tf pf = 1%nat
                                        /\ count sf pf = 1%nat)
                | Raise _ => false
                end = false).
      { intros c _. destruct (extract_first_name c); [|reflexivity].
        apply bool_decide_eq_false_2. tauto. }
      clear Htf. induction tm_players as [|c tm IH]; simpl; [lia|].
      rewrite (Hnone c (or_introl eq_refl)). apply IH.
      intros; apply Hnone; right; assumption.
  - intros candidate. unfold boosted_pair.
    destruct (extract_first_name candidate) as [cf|ex].
    + destruct (decide (count sf cf = 1%nat)) as [Hone|Hmany].
      * apply Nat.le_trans with (count sf cf); [|lia].
        rewrite <- (count_comprehension _ _ _ cf Hsf).
        apply filter_length_le_filter. intros n.
        destruct (extract_first_name n) as [pf|]; [|discriminate].
        rewrite !bool_decide_eq_true. intros (-> & _). reflexivity.
      * clear Hsf. induction subset as [|n names IH]; simpl; [lia|].
        destruct (extract_first_name n) as [pf|]; [|exact IH].
        rewrite bool_decide_eq_false_2; [exact IH|].
        intros (-> & _ & Hsfc). contradiction.
    + clear Hsf. induction subset as [|n names IH]; simpl; [lia|].
      destruct (extract_first_name n); exact IH.
Qed.

End BoostFacts.


(** *** The rows of the report *)

Lemma truthy_nonempty (s : str) : truthy s = true -> s <> [].
Proof. destruct s; [discriminate | discriminate]. Qed.

Lemma best_of_max (scores : list (str * Q)) (x : str * Q) :
  In x scores -> (snd x <= snd (best_of scores))%Q.
Proof.
  intros Hin. assert (Hne : scores <> []) by (intros ->; destruct Hin).
  destruct (sort_desc_head scores Hne)
    as (before & m & after & tl & Hsort & -> & Hb & Ha).
  unfold best_of. rewrite Hsort.
  rewrite List.Forall_forall in Hb, Ha.
  apply in_app_or in Hin as [Hin|[<-|Hin]]; [|apply Qle_refl|auto].
  apply Qlt_le_weak. auto.
Qed.

Section RowInvariant.
Context `{Unicode} `{Fuzz}.

Lemma record_outcome_well_formed (name slug best : str) (score : Q) (st : pass_state) :
  truthy name = true -> truthy best = true ->
  Forall well_formed (results st) ->
  Forall well_formed (results (record_outcome name slug best score st)).
Proof.
  intros Hname Hbest Hwf. apply truthy_nonempty in Hname.
  pose proof (truthy_nonempty best Hbest) as Hbne.
  unfold record_outcome. cbn [results]. apply Forall_app. split; [exact Hwf|].
  constructor; [|constructor]. unfold well_formed. cbn.
  destruct (Qle_bool 90 score) eqn:H90.
  - apply Qle_bool_iff in H90.
    assert (H65 : Qle_bool 65 score = true) by (apply Qle_bool_iff; lra).
    rewrite H65, Hbest. repeat split; try assumption. eauto.
  - apply Qle_bool_false in H90. destruct (Qle_bool 65 score) eqn:H65.
    + apply Qle_bool_iff in H65. rewrite Hbest.
      repeat split; try assumption. eauto.
    + cbn. repeat split. assumption.
Qed.

Lemma user_rows_well_formed (slug : str) (tm_players tf sf tf' names : list str)
    (st st' : pass_state) :
  comprehension extract_first_name tm_players = Ok tf' ->
  tm_players <> [] ->
  user_rows slug tm_players tf sf names st = Ok st' ->
  Forall well_formed (results st) ->
  Forall well_formed (results st').
Proof.
  intros Htf Hne. revert st. induction names as [|n names IH]; simpl; intros st Hst Hwf.
  - injection Hst as <-. exact Hwf.
  - unfold user_row in Hst.
    destruct (extract_first_name n) as [pf|ex] eqn:Hpf; simpl in Hst; [|discriminate].
    destruct (score_candidates n pf tf sf tm_players []) as [scores|ex] eqn:Hscores;
      simpl in Hst; [|discriminate].
    destruct (best_of_batch _ _ _ _ _ _ _ Htf Hne Hscores) as [_ Hbest].
    destruct (best_of scores) as [best score]. simpl in Hst, Hbest.
    apply (IH _ Hst). apply record_outcome_well_formed; try assumption.
    eapply extract_first_name_truthy; eassumption.
Qed.

Lemma club_pass_well_formed (slug : str) (subset tm_players : list str)
    (results0 rows : list Row) :
  tm_players <> [] ->
  club_pass slug subset tm_players results0 = Ok rows ->
  Forall well_formed results0 ->
  Forall well_formed rows.
Proof.
  intros Hne. unfold club_pass.
  destruct (comprehension extract_first_name tm_players) as [tf|ex] eqn:Htf;
    simpl; [|discriminate].
  destruct (comprehension extract_first_name subset) as [sf|ex] eqn:Hsf;
    simpl; [|discriminate].
  destruct (user_rows slug tm_players tf sf subset _) as [st|ex] eqn:Hst;
    simpl; [|discriminate].
  intros Hrows Hwf. injection Hrows as <-.
  rewrite new_player_rows_appends. apply Forall_app. split.
  - apply (user_rows_well_formed _ _ _ _ _ _ _ _ Htf Hne Hst). exact Hwf.
  - apply List.Forall_forall. intros r Hr.
    apply in_map_iff in Hr as (e & <- & He). apply filter_In in He as [He _].
    destruct (comprehension_defined _ _ _ _ Htf He) as [cf Hcf].
    unfold well_formed. cbn. repeat split.
    apply truthy_nonempty. eapply extract_first_name_truthy; eassumption.
Qed.

Lemma clubs_loop_well_formed (df : list (str * str)) (items : list (nat * (str * Z)))
    (results0 rows : list Row) (w w' : World) :
  clubs_loop df items results0 w = (w', Ok rows) ->
  Forall well_formed results0 ->
  Forall well_formed rows.
Proof.
  revert results0 w. induction items as [|[i [slug club_id]] items IH];
    intros results0 w; simpl.
  - intros Hrun Hwf. injection Hrun as _ <-. exact Hwf.
  - destruct (subset_of slug df) as [|n names]; [apply IH|].
    destruct (fetch_or_load_players club_id slug w) as [w1 [[|p tm]|ex]];
      [apply IH | | discriminate].
    destruct (club_pass slug (n :: names) (p :: tm) results0)
      as [results1|ex] eqn:Hpass; [|discriminate].
    intros Hrun Hwf. apply (IH _ _ Hrun).
    assert (Htm : p :: tm <> []) by discriminate.
    apply (club_pass_well_formed _ _ _ _ _ Htm Hpass Hwf).
Qed.

Lemma run_rows_well_formed (df : list (str * str)) (items : list (nat * (str * Z)))
    (w : World) :
  Forall well_formed (report_rows (clubs_loop df items [] w)).
Proof.
  unfold report_rows, rows_of.
  destruct (clubs_loop df items [] w) as [w' [rows|ex]] eqn:Hrun; simpl;
    [|constructor].
  apply (clubs_loop_well_formed _ _ _ _ _ _ Hrun). constructor.
Qed.

(** X12: in every row of a report the fields agree: a "new player" row
    has a provider name, no user name and no similarity; a row of a user
    name carries either a match name, a similarity, and the glyph and type
    of its score (validated and "match exact" from 90, warning and "match
    partiel" from 65 to below 90), or no match name, no similarity, the
    cross and "non trouvé". *)
Theorem report_rows_are_well_formed (df : list sheet_row) (w : World) :
  Forall well_formed (report_rows (verifier_effectifs df w)).
Proof. apply run_rows_well_formed. Qed.

(** X13: the rows that the reconciliation of one club adds carry the slug
    of the club and no name of their own making: the user name of a row is
    empty or a name of the club's rows of the table, its match name is
    empty or a name of the provider list. *)
Theorem report_names_come_from_inputs (slug : str) (subset tm_players : list str)
    (results0 rows : list Row) :
  tm_players <> [] ->
  club_pass slug subset tm_players results0 = Ok rows ->
  exists block,
    rows = results0 ++ block
    /\ Forall (fun r => club r = slug
                        /\ (nom_joueur r = [] \/ In (nom_joueur r) subset)
                        /\ (nom_tm r = [] \/ In (nom_tm r) tm_players)) block.
Proof.
  intros Hne Hpass.
  destruct (club_pass_rows _ _ _ _ _ Hne Hpass)
    as (tf & sf & outs & Htf & Hsf & -> & Hnames & Hall & Hpicks).
  eexists. split; [reflexivity|]. apply Forall_app. split.
  - assert (Htargets : Forall (fun r => nom_tm r = [] \/ In (nom_tm r) tm_players) outs).
    { clear Hnames Hall Hsf Hpass. induction Hpicks as [|n r names outs Hr _ IH];
        [constructor|]. constructor; [|exact IH].
      destruct (decide (nom_tm r = [])) as [He|He]; [left; exact He | right].
      pose proof (proj1 (Hr (nom_tm r) He) eq_refl) as Hpick.
      unfold picks in Hpick.
      destruct (extract_first_name n) as [pf|]; [|discriminate].
      destruct (score_candidates n pf tf sf tm_players []) as [scores|] eqn:Hscores;
        [|discriminate].
      apply andb_prop in Hpick as [Hbest _]. apply bool_decide_eq_true in Hbest.
      rewrite <- Hbest. eapply best_of_batch; eassumption. }
    rewrite List.Forall_forall in Hall, Htargets |- *. intros r Hr.
    split; [apply (Hall r Hr)|]. split; [|apply (Htargets r Hr)].
    right. rewrite <- Hnames. apply in_map, Hr.
  - apply List.Forall_forall. intros r Hr.
    apply in_map_iff in Hr as (e & <- & He). apply filter_In in He as [He _].
    simpl. auto.
Qed.

(** X14: a user name that stands in the provider list as it is gets an
    accepted match of type "match exact", whatever else the two lists hold,
    as soon as the similarity of a string with itself is 100 or more. *)
Theorem identical_name_is_exact (slug name pf : str) (tm_players tf sf tf' : list str)
    (st : pass_state) :
  (forall x, (100 <= token_sort_ratio x x)%Q) ->
  comprehension extract_first_name tm_players = Ok tf' ->
  In name tm_players ->
  extract_first_name name = Ok pf ->
  exists st' row,
    user_row slug tm_players tf sf name st = Ok st'
    /\ results st' = results st ++ [row]
    /\ nom_joueur row = name
    /\ type_ row = MatchExact /\ valide row = CheckMark
    /\ In (nom_tm row) tm_players
    /\ nom_tm row ∈ matched_tm_names st'.
Proof.
  intros Hself Htf Hin Hpf.
  assert (Hne : tm_players <> []) by (intros ->; destruct Hin).
  destruct (scores_of_batch name pf tf sf tm_players tf' Htf)
    as (scores & Hscores & Hfst & Hall).
  destruct (best_of_batch _ _ _ _ _ _ _ Htf Hne Hscores) as [Hbin Hbest].
  assert (H100 : (100 <= snd (best_of scores))%Q).
  { rewrite <- Hfst in Hin. apply in_map_iff in Hin as ([c s] & Hc & Hin).
    simpl in Hc. subst c. rewrite List.Forall_forall in Hall.
    pose proof (Hall _ Hin) as Hs. simpl in Hs.
    pose proof (best_of_max scores _ Hin) as Hmax. simpl in Hmax.
    pose proof (Hself (remove_accents name)) as Hraw.
    unfold candidate_score in Hs. rewrite Hpf in Hs. simpl in Hs.
    injection Hs as Hs. rewrite <- Hs in Hmax.
    destruct (decide (pf = pf)); [|congruence].
    destruct (decide (_ /\ _)); [|lra].
    destruct (Qmin_cases (token_sort_ratio (remove_accents name)
                            (remove_accents name) + 25) 100) as [[? Hm]|[? Hm]];
      rewrite Hm in Hmax; lra. }
  destruct (best_of scores) as [best score] eqn:Hbo. simpl in *.
  assert (H90 : Qle_bool 90 score = true) by (apply Qle_bool_iff; lra).
  assert (H65 : Qle_bool 65 score = true) by (apply Qle_bool_iff; lra).
  eexists _, _. split.
  { unfold user_row. rewrite Hpf. simpl. rewrite Hscores. simpl. rewrite Hbo.
    reflexivity. }
  unfold record_outcome. rewrite H90, H65, Hbest. cbn.
  split; [reflexivity|]. repeat split; try assumption.
  apply elem_of_union_l, elem_of_singleton. reflexivity.
Qed.

End RowInvariant.


(** *** Exceptions of one club and the world of a run *)



Lemma fetch_frame (club_id : Z) (slug : str) (w w' : World) (res : result (list str)) :
  fetch_or_load_players club_id slug w = (w', res) ->
  (clock w <= clock w')%Q
  /\ forall j, j <> club_id ->
       cache w' !! j = cache w !! j /\ network w' !! j = network w !! j.
Proof.
  unfold fetch_or_load_players. destruct (is_cache_fresh club_id w).
  - destruct (cache w !! club_id) as [[t [names|]]|]; intros Hrun;
      injection Hrun as <- _; (split; [apply Qle_refl | auto]).
  - destruct (fetch_attempts_inv club_id (seq 0 MAX_RETRIES) w)
      as (w1 & data & k & -> & _ & _ & Hclock & Hframe & _).
    intros Hrun. injection Hrun as <- _. auto.
Qed.

Section RunFacts.
Context `{Unicode} `{Fuzz}.


(** The loop over the catalog leaves alone the cache file and the pending
    answers of a club id for which it has no rows, and lets time pass. *)
Lemma clubs_loop_frame (df : list (str * str)) (items : list (nat * (str * Z)))
    (results0 : list Row) (w : World) (j : Z) :
  (forall item, In item items -> snd (snd item) = j ->
                subset_of (fst (snd item)) df = []) ->
  (clock w <= clock (fst (clubs_loop df items results0 w)))%Q
  /\ cache (fst (clubs_loop df items results0 w)) !! j = cache w !! j
  /\ network (fst (clubs_loop df items results0 w)) !! j = network w !! j.
Proof.
  revert results0 w. induction items as [|[i [slug club_id]] items IH];
    intros results0 w Hrows; simpl.
  - split; [apply Qle_refl | auto].
  - assert (Hrest : forall r w0,
              (clock w0 <= clock (fst (clubs_loop df items r w0)))%Q
              /\ cache (fst (clubs_loop df items r w0)) !! j = cache w0 !! j
              /\ network (fst (clubs_loop df items r w0)) !! j = network w0 !! j).
    { intros r w0. apply IH. intros item Hitem. apply Hrows. right. exact Hitem. }
    pose proof (Hrows (i, (slug, club_id)) (or_introl eq_refl)) as Hhere.
    simpl in Hhere.
    destruct (subset_of slug df) as [|n names] eqn:Hsub; [apply Hrest|].
    assert (Hj : j <> club_id) by (intros ->; specialize (Hhere eq_refl); discriminate).
    destruct (fetch_or_load_players club_id slug w) as [w1 res] eqn:Hfetch.
    destruct (fetch_frame _ _ _ _ _ Hfetch) as [Hclock Hframe].
    destruct (Hframe j Hj) as [Hc Hn].
    destruct res as [[|p tm]|ex].
    + destruct (Hrest results0 w1) as (Hclock' & Hc' & Hn').
      rewrite Hc', Hn'. split; [lra | auto].
    + destruct (club_pass slug (n :: names) (p :: tm) results0) as [results1|ex].
      * match goal with
        | |- context [clubs_loop df items results1 ?w2] =>
            destruct (Hrest results1 w2) as (Hclock' & Hc' & Hn');
            rewrite Hc', Hn';
            assert (Hw2 : (clock w1 <= clock w2)%Q
                          /\ cache w2 = cache w1 /\ network w2 = network w1)
        end.
        { destruct (decide (i = PAUSE_AFTER)); simpl;
            (split; [unfold PAUSE_SECONDS; lra | auto]). }
        destruct Hw2 as (Hclock2 & -> & ->). split; [lra | auto].
      * simpl. split; [lra | auto].
    + simpl. auto.
Qed.

Lemma clubs_loop_no_rows (df : list (str * str)) (items : list (nat * (str * Z)))
    (results0 : list Row) (w : World) :
  (forall item, In item items -> subset_of (fst (snd item)) df = []) ->
  clubs_loop df items results0 w = (w, Ok results0).
Proof.
  induction items as [|[i [slug club_id]] items IH]; intros Hrows; simpl;
    [reflexivity|].
  pose proof (Hrows (i, (slug, club_id)) (or_introl eq_refl)) as Hhere.
  simpl in Hhere. rewrite Hhere. apply IH.
  intros item Hitem. apply Hrows. right. exact Hitem.
Qed.

Lemma enumerate_In {A} (l : list A) (start : nat) (item : nat * A) :
  In item (enumerate l start) -> In (snd item) l.
Proof.
  intros Hin. apply (in_map snd) in Hin. rewrite enumerate_snd in Hin. exact Hin.
Qed.

(** The same for the loop over any catalog. *)
Lemma run_frame_of_catalog (catalog : list (str * Z)) (start : nat)
    (df : list (str * str)) (w : World) (j : Z) :
  (forall slug, In (slug, j) catalog -> subset_of slug df = []) ->
  (clock w <= clock (fst (clubs_loop df (enumerate catalog start) [] w)))%Q
  /\ cache (fst (clubs_loop df (enumerate catalog start) [] w)) !! j = cache w !! j
  /\ network (fst (clubs_loop df (enumerate catalog start) [] w)) !! j
     = network w !! j.
Proof.
  intros Hrows. apply clubs_loop_frame.
  intros [i [slug club_id]] Hitem Hid. simpl in *. subst club_id.
  apply Hrows. exact (enumerate_In _ _ _ Hitem).
Qed.

Lemma subset_of_nil (slug : str) (df : list (str * str)) :
  (forall r, In r df -> snd r <> slug) -> subset_of slug df = [].
Proof.
  intros Hall. unfold subset_of.
  induction df as [|r df IH]; [reflexivity|]. simpl.
  rewrite bool_decide_eq_false_2 by (apply Hall; left; reflexivity).
  apply IH. intros; apply Hall; right; assumption.
Qed.

Lemma run_of_catalog_without_rows (catalog : list (str * Z)) (start : nat)
    (df : list (str * str)) (w : World) :
  (forall r, In r df -> ~ In (snd r) (List.map fst catalog)) ->
  clubs_loop df (enumerate catalog start) [] w = (w, Ok []).
Proof.
  intros Hrows. apply clubs_loop_no_rows.
  intros [i [slug club_id]] Hitem. simpl. apply subset_of_nil.
  intros r Hr <-. apply (Hrows r Hr).
  apply enumerate_In in Hitem. simpl in Hitem.
  apply (in_map fst) in Hitem. exact Hitem.
Qed.

(** X16: a run sends requests and writes cache files only for clubs that
    have rows in the table: for a club id none of whose catalog slugs has a
    complete row, the cache file and the pending answers are after the run
    what they were before, whether the run ends well or not; and the clock
    never runs backwards. *)
Theorem run_leaves_other_clubs_alone (df : list sheet_row) (w : World) (j : Z) :
  (forall slug, In (slug, j) CLUB_SLUG_TO_ID -> subset_of slug (dropna df) = []) ->
  (clock w <= clock (fst (verifier_effectifs df w)))%Q
  /\ cache (fst (verifier_effectifs df w)) !! j = cache w !! j
  /\ network (fst (verifier_effectifs df w)) !! j = network w !! j.
Proof.
  intros Hrows. unfold verifier_effectifs.
  apply run_frame_of_catalog. exact Hrows.
Qed.

(** X17: a table without a complete row of a club of the catalog (an empty
    table, rows with missing cells, rows of other clubs) gives the empty
    report at once: no request, no pause, no cache file touched. *)
Theorem table_without_catalog_club (df : list sheet_row) (w : World) :
  (forall r, In r (dropna df) -> ~ In (snd r) (List.map fst CLUB_SLUG_TO_ID)) ->
  verifier_effectifs df w = (w, Ok []).
Proof.
  intros Hrows. unfold verifier_effectifs.
  apply run_of_catalog_without_rows. exact Hrows.
Qed.

End RunFacts.


(** *** The requests of a run *)

Lemma fetch_requests (club_id : Z) (slug : str) (w w' : World) (res : result (list str)) :
  fetch_or_load_players club_id slug w = (w', res) ->
  exists k, (k <= MAX_RETRIES)%nat
            /\ pending club_id w' = drop k (pending club_id w).
Proof.
  unfold fetch_or_load_players. destruct (is_cache_fresh club_id w).
  - intros Hrun. exists 0%nat. split; [unfold MAX_RETRIES; lia|].
    destruct (cache w !! club_id) as [[t [names|]]|]; injection Hrun as <- _;
      reflexivity.
  - destruct (fetch_attempts_inv club_id (seq 0 MAX_RETRIES) w)
      as (w1 & data & k & -> & Hk & Hpend & _).
    intros Hrun. injection Hrun as <- _.
    exists k. rewrite length_seq in Hk. auto.
Qed.

Lemma pending_same_network (j : Z) (w w' : World) :
  network w' !! j = network w !! j -> pending j w' = pending j w.
Proof. unfold pending. intros ->. reflexivity. Qed.

Lemma catalog_ids_distinct : NoDup (List.map snd CLUB_SLUG_TO_ID).
Proof. apply (bool_decide_unpack _). vm_compute. exact I. Qed.

Section RequestFacts.
Context `{Unicode} `{Fuzz}.

(** The loop over distinct club ids sends at most [MAX_RETRIES] requests
    to each. *)
Lemma clubs_loop_requests (df : list (str * str)) (items : list (nat * (str * Z)))
    (results0 : list Row) (w : World) (j : Z) :
  NoDup (List.map (fun item => snd (snd item)) items) ->
  exists k, (k <= MAX_RETRIES)%nat
            /\ pending j (fst (clubs_loop df items results0 w)) = drop k (pending j w).
Proof.
  revert results0 w. induction items as [|[i [slug club_id]] items IH];
    intros results0 w Hids.
  - exists 0%nat. split; [unfold MAX_RETRIES; lia | reflexivity].
  - simpl in Hids. apply NoDup_cons in Hids as [Hfresh Hids].
    simpl. destruct (subset_of slug df) as [|n names]; [apply IH, Hids|].
    destruct (fetch_or_load_players club_id slug w) as [w1 res] eqn:Hfetch.
    destruct (fetch_frame _ _ _ _ _ Hfetch) as [_ Hframe].
    destruct (decide (j = club_id)) as [->|Hj].
    + destruct (fetch_requests _ _ _ _ _ Hfetch) as (k & Hk & Hpend).
      exists k. split; [exact Hk|]. rewrite <- Hpend.
      assert (Hrest : forall r w0,
                network (fst (clubs_loop df items r w0)) !! club_id
                = network w0 !! club_id).
      { intros r w0. apply clubs_loop_frame.
        intros item Hitem Hid. exfalso. apply Hfresh.
        rewrite <- Hid. apply list_elem_of_In.
        apply (in_map (fun item => snd (snd item))), Hitem. }
      apply pending_same_network.
      destruct res as [[|p tm]|ex]; [apply Hrest | | reflexivity].
      destruct (club_pass slug (n :: names) (p :: tm) results0); [|reflexivity].
      rewrite Hrest. destruct (decide (i = PAUSE_AFTER)); reflexivity.
    + destruct (Hframe j Hj) as [_ Hnet].
      rewrite <- (pending_same_network j w w1 Hnet).
      destruct res as [[|p tm]|ex]; [apply IH, Hids | |].
      * destruct (club_pass slug (n :: names) (p :: tm) results0).
        -- match goal with
           | |- context [clubs_loop df items ?r ?w2] =>
               destruct (IH r w2 Hids) as (k & Hk & Hpend)
           end.
           exists k. split; [exact Hk|]. rewrite Hpend.
           destruct (decide (i = PAUSE_AFTER)); reflexivity.
        -- exists 0%nat. split; [unfold MAX_RETRIES; lia | reflexivity].
      * exists 0%nat. split; [unfold MAX_RETRIES; lia | reflexivity].
Qed.

Lemma run_requests_of_catalog (catalog : list (str * Z)) (start : nat)
    (df : list (str * str)) (w : World) (j : Z) :
  NoDup (List.map snd catalog) ->
  exists k, (k <= MAX_RETRIES)%nat
            /\ pending j (fst (clubs_loop df (enumerate catalog start) [] w))
               = drop k (pending j w).
Proof.
  intros Hids. apply clubs_loop_requests.
  replace (List.map (fun item : nat * (list N * Z) => snd (snd item))
             (enumerate catalog start))
    with (List.map snd catalog); [exact Hids|].
  rewrite <- (enumerate_snd catalog start) at 1. rewrite List.map_map. reflexivity.
Qed.

(** X18: a run sends at most [MAX_RETRIES] requests for any one club: for
    every club id, the answers still pending after the run are the pending
    ones without their first [k], for some [k] of at most three, whether
    the run ends well or in an exception. *)
Theorem run_sends_at_most_three_requests_per_club (df : list sheet_row)
    (w : World) (j : Z) :
  exists k, (k <= MAX_RETRIES)%nat
            /\ pending j (fst (verifier_effectifs df w)) = drop k (pending j w).
Proof.
  unfold verifier_effectifs. apply run_requests_of_catalog.
  exact catalog_ids_distinct.
Qed.

End RequestFacts.


(** ** The properties on sample inputs *)

#[local] Existing Instance basic_latin.
#[local] Existing Instance indel.

(** The failing inputs of C1: the empty name and a name of three spaces. *)
Example blank_names_raise :
  extract_first_name [] = Raise IndexError
  /\ extract_first_name (py "   ") = Raise IndexError
  /\ extract_first_name (py "  Luka Modric ") = Ok (py "luka").
Proof. repeat split. Qed.

(** A table with a name of spaces makes the whole run raise. *)
Example blank_name_aborts_the_run :
  snd (verifier_effectifs
         [ sheet "Luka Modric" "real-madrid-madrid"; sheet "   " "real-madrid-madrid" ]
         madrid_world)
  = Raise IndexError.
Proof. vm_compute. reflexivity. Qed.

Lemma boost_rule_witness :
  comprehension extract_first_name jon_providers = Ok [py "jon"; py "jonathan"]
  /\ comprehension extract_first_name jon_names = Ok [py "jon"]
  /\ In (py "Jon Smith") jon_names
  /\ exists pf scores,
      extract_first_name (py "Jon Smith") = Ok pf
      /\ score_candidates (py "Jon Smith") pf [py "jon"; py "jonathan"] [py "jon"]
           jon_providers [] = Ok scores
      /\ List.map fst scores = jon_providers
      /\ Forall (fun x =>
           exists cf, extract_first_name (fst x) = Ok cf /\
           let raw := token_sort_ratio (remove_accents (py "Jon Smith"))
                        (remove_accents (fst x)) in
           let unique := cf = pf /\ count [py "jon"; py "jonathan"] pf = 1%nat
                         /\ count [py "jon"] pf = 1%nat in
           (unique -> ((raw + 25 <= 100)%Q /\ snd x = (raw + 25)%Q)
                      \/ ((100 < raw + 25)%Q /\ snd x = 100%Q))
           /\ (~ unique -> snd x = raw)) scores.
Proof.
  split; [reflexivity|]. split; [reflexivity|]. split; [left; reflexivity|].
  apply (boost_rule jon_names jon_providers [py "jon"; py "jonathan"] [py "jon"]
           (py "Jon Smith")); [reflexivity | reflexivity | left; reflexivity].
Defined.

(** The boosted and the unboosted score of that batch: [600 # 19] is the
    raw similarity of "Jon Smith" and "Jon Garcia" (31.58), [1075 # 19] is
    25 more; "Jonathan Perez" has another first token. *)
Example boost_rule_scores :
  score_candidates (py "Jon Smith") (py "jon") [py "jon"; py "jonathan"] [py "jon"]
    jon_providers []
  = Ok [ (py "Jon Garcia", Qmin ((600 # 19) + 25) 100);
         (py "Jonathan Perez", (1000 # 23)%Q) ]
  /\ (Qmin ((600 # 19) + 25) 100 == 1075 # 19)%Q.
Proof. split; reflexivity. Qed.

(** The first token "carlos" twice on the provider side: no boost. *)
Example ambiguous_first_name_scores :
  score_candidates (py "Carlos Soler") (py "carlos") [py "carlos"; py "carlos"]
    [py "carlos"] [py "Carlos Vicente"; py "Carlos Romero"] []
  = Ok [ (py "Carlos Vicente",
          token_sort_ratio (py "Carlos Soler") (py "Carlos Vicente"));
         (py "Carlos Romero",
          token_sort_ratio (py "Carlos Soler") (py "Carlos Romero")) ].
Proof. reflexivity. Qed.

Lemma best_candidate_first_maximum_witness :
  comprehension extract_first_name tie_providers = Ok [py "jon"; py "jon"; py "smith"]
  /\ tie_providers <> []
  /\ exists scores before best score after,
      score_candidates (py "Jon Smith") (py "jon") [py "jon"; py "jon"; py "smith"]
        [py "jon"] tie_providers [] = Ok scores
      /\ Forall (fun x => candidate_score (py "Jon Smith") (py "jon")
                            [py "jon"; py "jon"; py "smith"] [py "jon"] (fst x)
                          = Ok (snd x)) scores
      /\ best_of scores = (best, score)
      /\ scores = before ++ (best, score) :: after
      /\ tie_providers = List.map fst before ++ best :: List.map fst after
      /\ Forall (fun x => (snd x < score)%Q) before
      /\ Forall (fun x => (snd x <= score)%Q) after.
Proof.
  split; [reflexivity|]. split; [discriminate|].
  apply (best_candidate_first_maximum (py "Jon Smith") (py "jon")
           [py "jon"; py "jon"; py "smith"] [py "jon"] tie_providers
           [py "jon"; py "jon"; py "smith"]); [reflexivity | discriminate].
Defined.

(** "Jon Smith" and "Smith Jon" both score 100 for the user name "Jon
    Smith"; the one that comes first in the provider list is selected. *)
Example tie_goes_to_the_first :
  best_of [ (py "Jon Garcia", (600 # 19)%Q); (py "Jon Smith", 100%Q);
            (py "Smith Jon", 100%Q) ]
  = (py "Jon Smith", 100%Q)
  /\ best_of [ (py "Jon Garcia", (600 # 19)%Q); (py "Smith Jon", 100%Q);
               (py "Jon Smith", 100%Q) ]
     = (py "Smith Jon", 100%Q).
Proof. split; reflexivity. Qed.

Lemma classification_thresholds_witness :
  comprehension extract_first_name squad = Ok [py "gavi"; py "lamine"; py "pedri"]
  /\ squad <> []
  /\ extract_first_name (py "Pedri Gonzalez") = Ok (py "pedri")
  /\ exists scores best score row st',
      score_candidates (py "Pedri Gonzalez") (py "pedri")
        [py "gavi"; py "lamine"; py "pedri"] [py "pedri"] squad [] = Ok scores
      /\ best_of scores = (best, score)
      /\ user_row (py "barcelona-barcelona") squad
           [py "gavi"; py "lamine"; py "pedri"] [py "pedri"]
           (py "Pedri Gonzalez") fresh_pass = Ok st'
      /\ results st' = results fresh_pass ++ [row]
      /\ nom_joueur row = py "Pedri Gonzalez"
      /\ club row = py "barcelona-barcelona"
      /\ ((90 <= score)%Q ->
            type_ row = MatchExact /\ valide row = CheckMark
            /\ nom_tm row = best /\ best <> []
            /\ similarite row = Some (round2 score)
            /\ best ∈ matched_tm_names st')
      /\ ((65 <= score)%Q -> (score < 90)%Q ->
            type_ row = MatchPartiel /\ valide row = WarningSign
            /\ nom_tm row = best /\ best <> []
            /\ similarite row = Some (round2 score)
            /\ best ∈ matched_tm_names st')
      /\ ((score < 65)%Q ->
            type_ row = NonTrouve /\ valide row = CrossMark
            /\ nom_tm row = [] /\ similarite row = None
            /\ matched_tm_names st' = matched_tm_names fresh_pass).
Proof.
  split; [reflexivity|]. split; [discriminate|]. split; [reflexivity|].
  apply (classification_thresholds (py "barcelona-barcelona") (py "Pedri Gonzalez")
           (py "pedri") squad [py "gavi"; py "lamine"; py "pedri"] [py "pedri"]
           [py "gavi"; py "lamine"; py "pedri"] fresh_pass);
    [reflexivity | discriminate | reflexivity].
Defined.

(** The rows at the scores 90, 65 and 64, and at 89.99. *)
Example threshold_boundaries :
  List.map (fun score =>
         let st := record_outcome (py "Pedri Gonzalez") (py "barcelona-barcelona")
                     (py "Pedri") score fresh_pass in
         (List.map (fun r => (nom_tm r, valide r, type_ r)) (results st),
          bool_decide (py "Pedri" ∈ matched_tm_names st)))
    [ 90%Q; 89.99%Q; 65%Q; 64%Q ]
  = [ ([(py "Pedri", CheckMark, MatchExact)], true);
      ([(py "Pedri", WarningSign, MatchPartiel)], true);
      ([(py "Pedri", WarningSign, MatchPartiel)], true);
      ([([], CrossMark, NonTrouve)], false) ].
Proof. vm_compute. reflexivity. Qed.

Lemma report_layout_witness :
  verifier_effectifs league_table league_world
  = (fst (verifier_effectifs league_table league_world),
     Ok (report_rows (verifier_effectifs league_table league_world)))
  /\ report_of (dropna league_table) CLUB_SLUG_TO_ID league_world
       (report_rows (verifier_effectifs league_table league_world)).
Proof.
  split; [vm_compute; reflexivity|].
  apply (report_layout league_table league_world
           (fst (verifier_effectifs league_table league_world))).
  vm_compute. reflexivity.
Defined.

(** The report of the sample table: the block of Barcelona (third in the
    catalog) before the one of Villarreal (last), though the table starts
    with Villarreal; in each block the user rows in table order, then the
    unclaimed provider names; nothing for Celta, whose requests all fail,
    nor for the club that is no key of the catalog. *)
Example league_report :
  List.map (fun r => (club r, nom_joueur r, nom_tm r, valide r))
    (report_rows (verifier_effectifs league_table league_world))
  = [ (py "barcelona-barcelona", py "Pedri Gonzalez", py "Pedri", WarningSign);
      (py "barcelona-barcelona", py "Gavi", py "Gavi", CheckMark);
      (py "barcelona-barcelona", [], py "Lamine Yamal", NewButton);
      (py "villarreal-villarreal", py "Gerard Moreno", py "Gerard Moreno", CheckMark);
      (py "villarreal-villarreal", [], py "Alex Baena", NewButton) ].
Proof. vm_compute. reflexivity. Qed.

Lemma corrupt_cache_raises_witness :
  cache corrupt_world !! 13 = Some {| mtime := 0; body := Garbage |}
  /\ is_cache_fresh 13 corrupt_world = true
  /\ body {| mtime := 0; body := Garbage |} = Garbage
  /\ fetch_or_load_players 13 (py "atletico-madrid-madrid") corrupt_world
     = (corrupt_world, Raise JSONDecodeError).
Proof.
  split; [reflexivity|]. split; [reflexivity|]. split; [reflexivity|].
  apply (corrupt_cache_raises 13 (py "atletico-madrid-madrid") corrupt_world
           {| mtime := 0; body := Garbage |}); reflexivity.
Defined.

(** With that cache file the run ends in the exception, though the provider
    would have answered the request. *)
Example corrupt_cache_aborts_the_run :
  verifier_effectifs [ sheet "Koke" "atletico-madrid-madrid" ] corrupt_world
  = (corrupt_world, Raise JSONDecodeError).
Proof. vm_compute. reflexivity. Qed.

(** The same club without cache file: the request is sent and answered. *)
Example live_fetch_without_cache :
  snd (fetch_or_load_players 13 (py "atletico-madrid-madrid")
         {| clock := clock corrupt_world; cache := ∅;
            network := network corrupt_world |})
  = Ok [py "Antoine Griezmann"].
Proof. vm_compute. reflexivity. Qed.

(** C2, counterexample: the table names one player of Real Madrid in two
    spellings; both rows carry the one provider name "Luka Modric" as
    accepted match. *)
Lemma one_name_claimed_twice :
  claims (py "Luka Modric") (report_rows (verifier_effectifs madrid_table madrid_world))
  = 2%nat
  /\ ~ (claims (py "Luka Modric")
          (report_rows (verifier_effectifs madrid_table madrid_world)) <= 1)%nat.
Proof.
  assert (Hclaims : claims (py "Luka Modric")
            (report_rows (verifier_effectifs madrid_table madrid_world)) = 2%nat)
    by (vm_compute; reflexivity).
  split; [exact Hclaims | rewrite Hclaims; lia].
Qed.

Lemma claims_are_per_user_row_witness :
  club_pass (py "real-madrid-madrid") [py "Luka Modric"; py "Modric Luka"]
    [py "Luka Modric"] []
  = Ok (rows_of (club_pass (py "real-madrid-madrid")
                   [py "Luka Modric"; py "Modric Luka"] [py "Luka Modric"] []))
  /\ In (py "Luka Modric") [py "Luka Modric"]
  /\ exists block tf sf,
      rows_of (club_pass (py "real-madrid-madrid")
                 [py "Luka Modric"; py "Modric Luka"] [py "Luka Modric"] [])
      = [] ++ block
      /\ comprehension extract_first_name [py "Luka Modric"] = Ok tf
      /\ comprehension extract_first_name [py "Luka Modric"; py "Modric Luka"] = Ok sf
      /\ claims (py "Luka Modric") block
         = length (List.filter (picks [py "Luka Modric"] tf sf (py "Luka Modric"))
                     [py "Luka Modric"; py "Modric Luka"])
      /\ (claims (py "Luka Modric") block
          <= length [py "Luka Modric"; py "Modric Luka"])%nat.
Proof.
  split; [vm_compute; reflexivity|]. split; [left; reflexivity|].
  apply (claims_are_per_user_row (py "real-madrid-madrid") (py "Luka Modric")
           [py "Luka Modric"; py "Modric Luka"] [py "Luka Modric"] []);
    [vm_compute; reflexivity | left; reflexivity].
Defined.

(** C3, counterexample: the provider lists "Pedri" twice and the only user
    name of the club matches nothing; "Pedri" gets two "new player" rows,
    not one. *)
Lemma duplicate_name_reported_twice :
  claims (py "Pedri")
    (report_rows (verifier_effectifs barcelona_table barcelona_world)) = 0%nat
  /\ news (py "Pedri")
       (report_rows (verifier_effectifs barcelona_table barcelona_world)) = 2%nat
  /\ (claims (py "Pedri")
        (report_rows (verifier_effectifs barcelona_table barcelona_world))
      + news (py "Pedri")
          (report_rows (verifier_effectifs barcelona_table barcelona_world))
      <> 1)%nat.
Proof.
  assert (Hc : claims (py "Pedri")
            (report_rows (verifier_effectifs barcelona_table barcelona_world)) = 0%nat)
    by (vm_compute; reflexivity).
  assert (Hn : news (py "Pedri")
            (report_rows (verifier_effectifs barcelona_table barcelona_world)) = 2%nat)
    by (vm_compute; reflexivity).
  rewrite Hc, Hn. repeat split. lia.
Qed.

Lemma external_names_are_reported_witness :
  club_pass (py "barcelona-barcelona") [py "Gavi"] [py "Pedri"; py "Pedri"] []
  = Ok (rows_of (club_pass (py "barcelona-barcelona") [py "Gavi"]
                   [py "Pedri"; py "Pedri"] []))
  /\ In (py "Pedri") [py "Pedri"; py "Pedri"]
  /\ exists block,
      rows_of (club_pass (py "barcelona-barcelona") [py "Gavi"]
                 [py "Pedri"; py "Pedri"] [])
      = [] ++ block
      /\ (claims (py "Pedri") block = 0%nat \/ news (py "Pedri") block = 0%nat)
      /\ (1 <= claims (py "Pedri") block + news (py "Pedri") block)%nat
      /\ (claims (py "Pedri") block = 0%nat ->
          news (py "Pedri") block = count [py "Pedri"; py "Pedri"] (py "Pedri")).
Proof.
  split; [vm_compute; reflexivity|]. split; [left; reflexivity|].
  apply (external_names_are_reported (py "barcelona-barcelona") (py "Pedri")
           [py "Gavi"] [py "Pedri"; py "Pedri"] []);
    [vm_compute; reflexivity | left; reflexivity].
Defined.

(** *** The further properties on sample inputs *)

Lemma extract_first_name_ignores_padding_witness :
  forallb isspace (py "  ") = true
  /\ forallb isspace [9%N; 32%N] = true
  /\ extract_first_name (py "  " ++ py "Luka Modric" ++ [9%N; 32%N])
     = extract_first_name (py "Luka Modric").
Proof.
  split; [reflexivity|]. split; [reflexivity|].
  apply (extract_first_name_ignores_padding (py "  ") (py "Luka Modric") [9%N; 32%N]);
    reflexivity.
Defined.

Lemma extract_first_name_first_token_witness :
  py "Luka" <> []
  /\ forallb (fun x => negb (isspace x)) (py "Luka") = true
  /\ isspace 32 = true
  /\ extract_first_name (py "Luka" ++ 32%N :: py "Modric")
     = Ok (lower (remove_accents (py "Luka")))
  /\ extract_first_name (py "Luka") = Ok (lower (remove_accents (py "Luka"))).
Proof.
  split; [discriminate|]. split; [reflexivity|]. split; [reflexivity|].
  apply (extract_first_name_first_token (py "Luka") (py "Modric") 32%N);
    [discriminate | reflexivity | reflexivity].
Defined.

Lemma fetch_gives_up_after_three_failures_witness :
  is_cache_fresh 418 dead_world = false
  /\ Forall (fun r => usable r = false) (take MAX_RETRIES (pending 418 dead_world))
  /\ exists w',
      fetch_or_load_players 418 (py "real-madrid-madrid") dead_world = (w', Ok [])
      /\ cache w' = cache dead_world
      /\ (clock w' == clock dead_world + 7.5)%Q
      /\ pending 418 w' = drop MAX_RETRIES (pending 418 dead_world).
Proof.
  split; [reflexivity|].
  assert (Hall : Forall (fun r => usable r = false)
                   (take MAX_RETRIES (pending 418 dead_world)))
    by (repeat constructor).
  split; [exact Hall|].
  apply (fetch_gives_up_after_three_failures 418 (py "real-madrid-madrid") dead_world);
    [reflexivity | exact Hall].
Defined.


Lemma fetched_roster_is_cached_witness :
  is_cache_fresh 418 flaky_world = false
  /\ fetch_or_load_players 418 (py "real-madrid-madrid") flaky_world
     = (fst (fetch_or_load_players 418 (py "real-madrid-madrid") flaky_world),
        Ok [py "Luka Modric"])
  /\ [py "Luka Modric"] <> []
  /\ (0 <= 3600)%Q /\ (3600 < 86400)%Q
  /\ fetch_or_load_players 418 (py "real-madrid-madrid")
       (sleep 3600 (fst (fetch_or_load_players 418 (py "real-madrid-madrid") flaky_world)))
     = (sleep 3600 (fst (fetch_or_load_players 418 (py "real-madrid-madrid") flaky_world)),
        Ok [py "Luka Modric"]).
Proof.
  split; [reflexivity|]. split; [vm_compute; reflexivity|].
  split; [discriminate|]. split; [discriminate|]. split; [reflexivity|].
  apply (fetched_roster_is_cached 418 (py "real-madrid-madrid")
           (py "real-madrid-madrid") flaky_world
           (fst (fetch_or_load_players 418 (py "real-madrid-madrid") flaky_world))
           [py "Luka Modric"] 3600);
    [reflexivity | vm_compute; reflexivity | discriminate | discriminate | reflexivity].
Defined.

Lemma old_cache_is_not_read_witness :
  cache stale_world !! 418 = Some {| mtime := 0; body := Garbage |}
  /\ (86400 <= clock stale_world - mtime {| mtime := 0; body := Garbage |})%Q
  /\ exists w' data,
      fetch_or_load_players 418 (py "real-madrid-madrid") stale_world = (w', Ok data)
      /\ ((data = [] /\ cache w' = cache stale_world)
          \/ cache w' = <[418 := {| mtime := clock w'; body := Json data |}]>
                          (cache stale_world)).
Proof.
  split; [reflexivity|]. split; [discriminate|].
  apply (old_cache_is_not_read 418 (py "real-madrid-madrid") stale_world
           {| mtime := 0; body := Garbage |}); [reflexivity | discriminate].
Defined.

(** The stale file is replaced by the answer of the provider. *)
Example old_cache_is_replaced :
  snd (fetch_or_load_players 418 (py "real-madrid-madrid") stale_world)
  = Ok [py "Luka Modric"]
  /\ cache (fst (fetch_or_load_players 418 (py "real-madrid-madrid") stale_world)) !! 418
     = Some {| mtime := 90000; body := Json [py "Luka Modric"] |}.
Proof. split; vm_compute; reflexivity. Qed.


Lemma boost_is_one_to_one_witness :
  comprehension extract_first_name jon_providers = Ok [py "jon"; py "jonathan"]
  /\ comprehension extract_first_name jon_names = Ok [py "jon"]
  /\ (forall name,
        (length (List.filter (boosted_pair [py "jon"; py "jonathan"] [py "jon"] name)
                   jon_providers) <= 1)%nat)
  /\ (forall candidate,
        (length (List.filter
                   (fun name => boosted_pair [py "jon"; py "jonathan"] [py "jon"]
                                  name candidate) jon_names) <= 1)%nat).
Proof.
  split; [reflexivity|]. split; [reflexivity|].
  apply (boost_is_one_to_one jon_names jon_providers [py "jon"; py "jonathan"]
           [py "jon"]); reflexivity.
Defined.

Lemma report_names_come_from_inputs_witness :
  [py "Luka Modric"] <> []
  /\ club_pass (py "real-madrid-madrid") [py "Luka Modric"; py "Modric Luka"]
       [py "Luka Modric"] []
     = Ok (rows_of (club_pass (py "real-madrid-madrid")
                      [py "Luka Modric"; py "Modric Luka"] [py "Luka Modric"] []))
  /\ exists block,
      rows_of (club_pass (py "real-madrid-madrid")
                 [py "Luka Modric"; py "Modric Luka"] [py "Luka Modric"] [])
      = [] ++ block
      /\ Forall (fun r => club r = py "real-madrid-madrid"
                          /\ (nom_joueur r = []
                              \/ In (nom_joueur r) [py "Luka Modric"; py "Modric Luka"])
                          /\ (nom_tm r = [] \/ In (nom_tm r) [py "Luka Modric"])) block.
Proof.
  split; [discriminate|]. split; [vm_compute; reflexivity|].
  apply (report_names_come_from_inputs (py "real-madrid-madrid")
           [py "Luka Modric"; py "Modric Luka"] [py "Luka Modric"] []);
    [discriminate | vm_compute; reflexivity].
Defined.

Lemma indel_self_similar (x : str) : (100 <= token_sort_ratio x x)%Q.
Proof.
  change (100 <= Metric.ratio (Metric.join (Metric.sorted (split x)))
                   (Metric.join (Metric.sorted (split x))))%Q.
  rewrite MetricFacts.ratio_diag. apply Qle_refl.
Qed.

Lemma identical_name_is_exact_witness :
  (forall x, (100 <= token_sort_ratio x x)%Q)
  /\ comprehension extract_first_name squad = Ok [py "gavi"; py "lamine"; py "pedri"]
  /\ In (py "Lamine Yamal") squad
  /\ extract_first_name (py "Lamine Yamal") = Ok (py "lamine")
  /\ exists st' row,
      user_row (py "barcelona-barcelona") squad [py "gavi"; py "lamine"; py "pedri"]
        [py "lamine"; py "lamine"] (py "Lamine Yamal") fresh_pass = Ok st'
      /\ results st' = results fresh_pass ++ [row]
      /\ nom_joueur row = py "Lamine Yamal"
      /\ type_ row = MatchExact /\ valide row = CheckMark
      /\ In (nom_tm row) squad
      /\ nom_tm row ∈ matched_tm_names st'.
Proof.
  split; [exact indel_self_similar|]. split; [reflexivity|].
  split; [right; left; reflexivity|]. split; [reflexivity|].
  apply (identical_name_is_exact (py "barcelona-barcelona") (py "Lamine Yamal")
           (py "lamine") squad [py "gavi"; py "lamine"; py "pedri"]
           [py "lamine"; py "lamine"] [py "gavi"; py "lamine"; py "pedri"] fresh_pass);
    [exact indel_self_similar | reflexivity | right; left; reflexivity | reflexivity].
Defined.

Lemma no_row_of_atletico (slug : str) :
  In (slug, 13) CLUB_SLUG_TO_ID -> subset_of slug (dropna league_table) = [].
Proof.
  intros Hin. unfold CLUB_SLUG_TO_ID in Hin.
  repeat (destruct Hin as [Heq|Hin]; [inversion Heq; subst; reflexivity|]).
  destruct Hin.
Qed.

Lemma run_leaves_other_clubs_alone_witness :
  (forall slug, In (slug, 13) CLUB_SLUG_TO_ID ->
                subset_of slug (dropna league_table) = [])
  /\ (clock league_world <= clock (fst (verifier_effectifs league_table league_world)))%Q
  /\ cache (fst (verifier_effectifs league_table league_world)) !! 13
     = cache league_world !! 13
  /\ network (fst (verifier_effectifs league_table league_world)) !! 13
     = network league_world !! 13.
Proof.
  split; [exact no_row_of_atletico|].
  apply (run_leaves_other_clubs_alone league_table league_world 13).
  exact no_row_of_atletico.
Defined.

Lemma no_catalog_club_in_foreign_table (r : list N * list N) :
  In r (dropna foreign_table) -> ~ In (snd r) (List.map fst CLUB_SLUG_TO_ID).
Proof.
  intros [<-|[]] Hin. apply list_elem_of_In in Hin.
  assert (Hno : bool_decide (py "manchester-city" ∈ List.map fst CLUB_SLUG_TO_ID)
                = false) by (vm_compute; reflexivity).
  apply bool_decide_eq_false in Hno. exact (Hno Hin).
Qed.

Lemma table_without_catalog_club_witness :
  (forall r, In r (dropna foreign_table) ->
             ~ In (snd r) (List.map fst CLUB_SLUG_TO_ID))
  /\ verifier_effectifs foreign_table league_world = (league_world, Ok []).
Proof.
  split; [exact no_catalog_club_in_foreign_table|].
  apply (table_without_catalog_club foreign_table league_world).
  exact no_catalog_club_in_foreign_table.
Defined.
